(** * Terrier storage layer: projected rows, tuple access strategy, object pool

    A shallow embedding of
      - [src/storage/delta_record.cpp]   (ProjectedRow, ProjectedRowInitializer),
      - the [TupleAccessStrategy] header (tuple_access_strategy.h),
      - [src/include/common/object_pool.h] (ObjectPool),
    together with the properties the storage specification states about them.

    Conventions.
      - [uint8_t], [uint16_t], [uint32_t] values and addresses are [Z]; every
        place where the C++ code computes in 32 bits is wrapped by [wrap32].
      - Column ids and array indices are [nat].
      - Raw memory is a function from addresses to bytes; typed accesses are
        little-endian, as on the x86-64 targets of the code base.
      - [TERRIER_ASSERT] has its debug-build meaning: a failed assertion stops
        the operation.  Behaviour the C++ standard leaves undefined (indexing
        a vector out of range, overlapping [memcpy]) is the outcome
        [Undefined].
      - Execution is sequential: the atomic operations of the concurrent
        bitmap and of [num_records_] are modelled by what they do when no
        other thread interferes. *)

From Stdlib Require Import ZArith Lia List String Bool.
From coqutil Require Import Byte Word.LittleEndianList.
From stdpp Require Import base list sorting.

Local Open Scope Z_scope.

(** ** Outcomes of an operation *)

Inductive outcome (A : Type) : Type :=
| Done (a : A)
| AssertionFailure (msg : string)
| Undefined.
Arguments Done {A} a.
Arguments AssertionFailure {A} msg.
Arguments Undefined {A}.

Definition obind {A B} (o : outcome A) (k : A -> outcome B) : outcome B :=
  match o with
  | Done a => k a
  | AssertionFailure msg => AssertionFailure msg
  | Undefined => Undefined
  end.

Notation "x <- e ;; k" := (obind e (fun x => k))
  (at level 100, e at next level, right associativity).
Notation "e ;;; k" := (obind e (fun _ => k))
  (at level 100, k at level 200, right associativity).

(** Modelled from the spec: [TERRIER_ASSERT(cond, msg)] (common/macros.h is
    not among the sources); a violated precondition is fatal in debug
    builds. *)
Definition TERRIER_ASSERT (cond : bool) (msg : string) : outcome unit :=
  if cond then Done tt else AssertionFailure msg.

(** [v[i]] on a [std::vector]: undefined out of range. *)
Definition vec_at {A} (v : list A) (i : nat) : outcome A :=
  match v !! i with
  | Some x => Done x
  | None => Undefined
  end.

(** [for (uint32_t i = from; i < from + count; i++) body], the state of the
    loop threaded through the iterations. *)
Fixpoint for_loop {St : Type} (body : nat -> St -> outcome St)
    (count from : nat) (st : St) : outcome St :=
  match count with
  | O => Done st
  | S count' => st' <- body from st ;; for_loop body count' (S from) st'
  end.

(** ** Fixed-width integers *)

Definition wrap16 (z : Z) : Z := z mod 2 ^ 16.
Definition wrap32 (z : Z) : Z := z mod 2 ^ 32.

(** ** StorageUtil and RawBitmap helpers *)

(** Modelled from the spec: [StorageUtil::PadUpToSize(word_size, offset)]
    (storage_util.h is not among the sources) pads [offset] up to the next
    multiple of [word_size]; the arithmetic is [uint32_t]. *)
Definition PadUpToSize (word_size offset : Z) : Z :=
  let remainder := offset mod word_size in
  if remainder =? 0 then offset else wrap32 (offset + word_size - remainder).

(** Modelled from the spec: [StorageUtil::AlignedPtr(size, ptr)] pads the
    address [ptr] up to the next multiple of [size]. *)
Definition AlignedPtr (size ptr : Z) : Z :=
  let remainder := ptr mod size in
  if remainder =? 0 then ptr else ptr + size - remainder.

(** Modelled from the spec: [RawBitmap::SizeInBytes(n)] is [ceil(n/8)]. *)
Definition SizeInBytes (n : Z) : Z :=
  if n mod 8 =? 0 then n / 8 else wrap32 (n / 8 + 1).

(** ** BlockLayout *)

(** Modelled from the spec: [BlockLayout] (storage_defs.h is not among the
    sources) is [{ num_cols: u16, attr_sizes: [u8; num_cols] }] with the
    derived [num_slots]. *)
Record BlockLayout : Type := mkBlockLayout {
  attr_sizes_ : list Z;
  num_slots_ : Z
}.

(** Modelled from the spec: [BlockLayout::NumCols()], the number of
    attribute sizes of the layout. *)
Definition NumCols (layout : BlockLayout) : Z :=
  Z.of_nat (length (attr_sizes_ layout)).

(** Modelled from the spec: [BlockLayout::AttrSize(col)], the attribute
    size of column [col]; undefined for a column the layout does not have. *)
Definition AttrSize (layout : BlockLayout) (col : nat) : outcome Z :=
  vec_at (attr_sizes_ layout) col.

(** Modelled from the spec: [BlockLayout::NumSlots()]. *)
Definition NumSlots (layout : BlockLayout) : Z := num_slots_ layout.

(** Attribute sizes are 1, 2, 4, 8 or 16 bytes. *)
Definition valid_attr_size (s : Z) : bool :=
  (s =? 1) || (s =? 2) || (s =? 4) || (s =? 8) || (s =? 16).

(** A layout has at most 65535 columns ([num_cols] is a [uint16_t]), each of
    a valid attribute size, and a number of slots that is a [uint32_t]. *)
Definition valid_layout (layout : BlockLayout) : bool :=
  (NumCols layout <=? 65535) && forallb valid_attr_size (attr_sizes_ layout) &&
  (0 <=? NumSlots layout) && (NumSlots layout <? 2 ^ 32).

(** A projection list is valid for a layout when it is a non-empty,
    duplicate-free list of column ids of the layout. *)
Definition valid_projection (layout : BlockLayout) (col_ids : list nat) : bool :=
  negb (bool_decide (col_ids = [])) &&
  bool_decide (NoDup col_ids) &&
  forallb (fun c => Z.of_nat c <? NumCols layout) col_ids.

(** ** ProjectedRowInitializer *)

Record ProjectedRowInitializer : Type := mkInitializer {
  size_ : Z;
  col_ids_ : list nat;
  offsets_ : list Z
}.

(** [std::sort(first, last, std::less<>())] on [uint16_t] keys. *)
Definition std_sort (l : list nat) : list nat := merge_sort Nat.le l.

(** ** Raw memory *)

Definition mem : Type := Z -> byte.

Definition nullptr : Z := 0.

Definition load_bytes (m : mem) (addr : Z) (n : nat) : list byte :=
  map (fun i => m (addr + Z.of_nat i)) (seq 0 n).

Definition store_bytes (m : mem) (addr : Z) (bs : list byte) : mem :=
  fun a =>
    if (addr <=? a) && (a <? addr + Z.of_nat (length bs))
    then nth (Z.to_nat (a - addr)) bs Byte.x00
    else m a.

(** Unsigned integers of [w] bytes, little-endian. *)
Definition load_uint (w : nat) (m : mem) (addr : Z) : Z :=
  le_combine (load_bytes m addr w).
Definition store_uint (w : nat) (m : mem) (addr v : Z) : mem :=
  store_bytes m addr (le_split w v).

Definition load_u8 : mem -> Z -> Z := load_uint 1.
Definition load_u16 : mem -> Z -> Z := load_uint 2.
Definition load_u32 : mem -> Z -> Z := load_uint 4.

Definition store_u8 : mem -> Z -> Z -> mem := store_uint 1.
Definition store_u16 : mem -> Z -> Z -> mem := store_uint 2.
Definition store_u32 : mem -> Z -> Z -> mem := store_uint 4.

(** [m'] holds the bytes of [m] everywhere outside [[lo, hi)]. *)
Definition agree_outside (lo hi : Z) (m m' : mem) : Prop :=
  forall x, x < lo \/ hi <= x -> m' x = m x.

(** Modelled from the spec: [TERRIER_MEMCPY(dst, src, n)] (common/macros.h)
    is [memcpy], undefined when the two ranges overlap. *)
Definition TERRIER_MEMCPY (m : mem) (dst src n : Z) : outcome mem :=
  if (0 <? n) && (src <? dst + n) && (dst <? src + n) then Undefined
  else Done (store_bytes m dst (load_bytes m src (Z.to_nat n))).

(** Modelled from the spec: [TERRIER_MEMSET(dst, 0, n)] (common/macros.h)
    is [memset] with the value 0. *)
Definition TERRIER_MEMSET0 (m : mem) (dst n : Z) : mem :=
  store_bytes m dst (repeat Byte.x00 (Z.to_nat n)).

(** ** Bitmaps

    [RawBitmap] and [RawConcurrentBitmap] (their headers are not among the
    sources) are packed bit arrays: bit [pos] is kept in byte [pos / 8]. *)

(** Modelled from the spec: the mask of bit [pos] in its byte. *)
Definition bit_mask (pos : Z) : Z := Z.shiftl 1 (pos mod 8).

(** Modelled from the spec: [Test(pos)] reads bit [pos]. *)
Definition Test (m : mem) (bitmap pos : Z) : bool :=
  negb (Z.land (load_u8 m (bitmap + pos / 8)) (bit_mask pos) =? 0).

(** Modelled from the spec: [RawBitmap::Clear(num_bits)] zeroes the bytes
    that hold [num_bits] bits. *)
Definition Clear (m : mem) (bitmap num_bits : Z) : mem :=
  TERRIER_MEMSET0 m bitmap (SizeInBytes num_bits).

(** Modelled from the spec: [RawConcurrentBitmap::Flip(pos, expected_val)]
    toggles bit [pos] when it is observed at [expected_val] and returns
    whether it did; without interference the compare-and-swap succeeds at
    the first attempt. *)
Definition Flip (m : mem) (bitmap pos : Z) (expected_val : bool) : bool * mem :=
  let element := pos / 8 in
  let old_val := load_u8 m (bitmap + element) in
  if Bool.eqb (negb (Z.land old_val (bit_mask pos) =? 0)) expected_val
  then (true, store_u8 m (bitmap + element) (Z.lxor old_val (bit_mask pos)))
  else (false, m).

Section ProjectedRows.

(** [sizeof(ProjectedRow)]: the class declaration (delta_record.h) is not
    among the sources, so the size of the fixed header [{size_, num_cols_}]
    in front of the column ids is a parameter. *)
Variable sizeof_ProjectedRow : Z.

(** *** ProjectedRow

    The class declaration is not among the sources.  By the specification a
    projected row is
    [{ size: u32, num_cols: u16, col_ids: [u16; num_cols],
       attr_offsets: [u32; num_cols], null_bitmap, values }],
    the offsets block padded to 4 bytes and the bitmap to 8. *)

(** Modelled from the spec: [ProjectedRow::Size()], the field [size_]. *)
Definition Size (m : mem) (row : Z) : Z := load_u32 m row.

(** Modelled from the spec: [ProjectedRow::NumColumns()], the field
    [num_cols_], which follows [size_]. *)
Definition NumColumns (m : mem) (row : Z) : Z := load_u16 m (row + 4).

(** Modelled from the spec: [ProjectedRow::ColumnIds()], the address of the
    array of column ids, which follows the fixed header. *)
Definition ColumnIds (row : Z) : Z := row + sizeof_ProjectedRow.

(** Modelled from the spec: [ProjectedRow::AttrValueOffsets()], the address
    of the array of offsets: behind the column ids, 4-byte aligned. *)
Definition AttrValueOffsets (m : mem) (row : Z) : Z :=
  AlignedPtr 4 (ColumnIds row + 2 * NumColumns m row).

(** Modelled from the spec: [ProjectedRow::Bitmap()], the address of the
    null bitmap: behind the offsets, 8-byte aligned. *)
Definition Bitmap (m : mem) (row : Z) : Z :=
  AlignedPtr 8 (AttrValueOffsets m row + 4 * NumColumns m row).

(** [ColumnIds()[i]]. *)
Definition ColumnId (m : mem) (row : Z) (i : nat) : Z :=
  load_u16 m (ColumnIds row + 2 * Z.of_nat i).

(** [AttrValueOffsets()[i]]. *)
Definition AttrValueOffset (m : mem) (row : Z) (i : nat) : Z :=
  load_u32 m (AttrValueOffsets m row + 4 * Z.of_nat i).

(** Modelled from the spec: [ProjectedRow::AccessWithNullCheck(offset)]
    returns the address of the value when its bit is set, else null. *)
Definition Row_AccessWithNullCheck (m : mem) (row : Z) (i : nat) : Z :=
  if negb (Test m (Bitmap m row) (Z.of_nat i)) then nullptr
  else row + AttrValueOffset m row i.

(** *** ProjectedRowInitializer *)

(** One iteration of the loop of the constructor, with the loop variable
    [i] and the members [offsets_] and [size_] as state. *)
Definition ctor_step (layout : BlockLayout) (col_ids_ : list nat) (i : nat)
    (st : list Z * Z) : outcome (list Z * Z) :=
  let '(offsets_, size_) := st in
  (if decide (i < length offsets_)%nat then Done tt else Undefined) ;;;
  let offsets_ := <[i := size_]> offsets_ in
  next_size <-
    (if decide (i = (length col_ids_ - 1)%nat) then Done 8
     else (c <- vec_at col_ids_ (i + 1) ;; AttrSize layout c)) ;;
  let next_size := next_size mod 2 ^ 8 in
  c <- vec_at col_ids_ i ;;
  s <- AttrSize layout c ;;
  Done (offsets_, PadUpToSize next_size (wrap32 (size_ + s))).

(** [ProjectedRowInitializer::ProjectedRowInitializer(layout, col_ids)].

    The member initialiser [col_ids_(std::move(col_ids))] move-constructs
    the member from the parameter, which leaves the parameter [col_ids]
    empty; the second assertion reads the size of the parameter, not of
    the member. *)
Definition ProjectedRowInitializer_new (layout : BlockLayout)
    (col_ids : list nat) : outcome ProjectedRowInitializer :=
  let col_ids_ := col_ids in
  let col_ids : list nat := [] in
  let offsets_ := repeat 0 (length col_ids_) in
  TERRIER_ASSERT (negb (bool_decide (col_ids_ = [])))
    "cannot initialize an empty ProjectedRow" ;;;
  TERRIER_ASSERT (Z.of_nat (length col_ids) <? NumCols layout)
    "projected row should have number of columns smaller than the table's" ;;;
  let col_ids_ := std_sort col_ids_ in
  let n := Z.of_nat (length col_ids_) in
  let size_ := sizeof_ProjectedRow in
  let size_ := PadUpToSize 4 (wrap32 (size_ + wrap32 (n * 2))) in
  let size_ := PadUpToSize 8 (wrap32 (size_ + wrap32 (n * 4))) in
  c0 <- vec_at col_ids_ 0 ;;
  s0 <- AttrSize layout c0 ;;
  let size_ := PadUpToSize s0 (wrap32 (size_ + SizeInBytes (wrap32 n))) in
  st <- for_loop (ctor_step layout col_ids_) (length col_ids_) 0 (offsets_, size_) ;;
  Done (mkInitializer (snd st) col_ids_ (fst st)).

(** [ProjectedRowInitializer::InitializeRow(head)]. *)
Definition InitializeRow (init : ProjectedRowInitializer) (m : mem) (head : Z)
    : outcome (Z * mem) :=
  TERRIER_ASSERT (head mod 8 =? 0)
    "start of ProjectedRow needs to be aligned to 8 bytes to ensure correctness of alignment of its members" ;;;
  let result := head in
  let m := store_u32 m result (size_ init) in
  let m := store_u16 m (result + 4) (wrap16 (Z.of_nat (length (col_ids_ init)))) in
  m <- for_loop (fun i m =>
         c <- vec_at (col_ids_ init) i ;;
         Done (store_u16 m (ColumnIds result + 2 * Z.of_nat i) (Z.of_nat c)))
       (length (col_ids_ init)) 0 m ;;
  m <- for_loop (fun i m =>
         o <- vec_at (offsets_ init) i ;;
         Done (store_u32 m (AttrValueOffsets m result + 4 * Z.of_nat i) o))
       (length (col_ids_ init)) 0 m ;;
  let m := Clear m (Bitmap m result) (NumColumns m result) in
  Done (result, m).

(** [ProjectedRow::CopyProjectedRowLayout(head, other)]. *)
Definition CopyProjectedRowLayout (m : mem) (head other : Z) : outcome (Z * mem) :=
  let result := head in
  let header_size := Bitmap m other - other in
  m <- TERRIER_MEMCPY m result other header_size ;;
  let m := Clear m (Bitmap m result) (NumColumns m result) in
  Done (result, m).

End ProjectedRows.

(** The offset of the bitmap in a row of [n] columns whose address is a
    multiple of 8. *)
Definition header_bytes (sizeof_ProjectedRow n : Z) : Z :=
  AlignedPtr 8 (AlignedPtr 4 (sizeof_ProjectedRow + 2 * n) + 4 * n).

(** ** The layout plan of the specification

    The reference algorithm, written from the words of the specification
    over unbounded integers: sort the ids; start at the header size; add 2
    bytes per id and pad to 4; add 4 bytes per offset and pad to 8; add
    [ceil(n/8)] bitmap bytes and pad to the attribute size of the first
    column; then, per column, record the offset, add the attribute size and
    pad to the next attribute size or, at the last column, to 8. *)
Module Reference.

Definition pad_to (a x : Z) : Z := a * ((x + a - 1) / a).

Definition bitmap_bytes (n : Z) : Z := (n + 7) / 8.

Fixpoint insert_asc (c : nat) (l : list nat) : list nat :=
  match l with
  | [] => [c]
  | d :: l' => if (c <=? d)%nat then c :: l else d :: insert_asc c l'
  end.

Definition sort_asc (l : list nat) : list nat := foldr insert_asc [] l.

Fixpoint place (sizes : list Z) (size : Z) : list Z * Z :=
  match sizes with
  | [] => ([], size)
  | s :: rest =>
      let next := match rest with [] => 8 | s' :: _ => s' end in
      let '(offsets, total) := place rest (pad_to next (size + s)) in
      (size :: offsets, total)
  end.

Definition plan (header_size : Z) (attr_size : nat -> Z) (col_ids : list nat)
    : list Z * Z :=
  let sorted := sort_asc col_ids in
  let n := Z.of_nat (length sorted) in
  let size := header_size in
  let size := pad_to 4 (size + 2 * n) in
  let size := pad_to 8 (size + 4 * n) in
  let size := pad_to (attr_size (hd O sorted)) (size + bitmap_bytes n) in
  place (map attr_size sorted) size.

End Reference.

(** The attribute size of a column as a total function (0 out of range). *)
Definition attr_size_of (layout : BlockLayout) (col : nat) : Z :=
  nth col (attr_sizes_ layout) 0.

(** The attribute size the loop of the constructor pads to after a column,
    given the columns that follow it. *)
Definition next_attr (layout : BlockLayout) (rest : list nat) : Z :=
  match rest with
  | [] => 8
  | c :: _ => attr_size_of layout c
  end.

(** ** Tuple slots and raw blocks *)

(** Modelled from the spec: blocks are 1 MiB, and aligned to their size. *)
Definition BLOCK_SIZE : Z := 2 ^ 20.

(** Modelled from the spec: a [TupleSlot] (storage_defs.h is not among the
    sources) packs the address of its 1-MiB aligned block and the offset of
    the slot in the block into one word, the offset in the low 20 bits. *)
Record TupleSlot : Type := mkTupleSlot { bytes_ : Z }.

(** Modelled from the spec: [TupleSlot::GetBlock()], the word without its
    low 20 bits. *)
Definition GetBlock (slot : TupleSlot) : Z :=
  Z.ldiff (bytes_ slot) (BLOCK_SIZE - 1).

(** Modelled from the spec: [TupleSlot::GetOffset()], the low 20 bits of the
    word as a [uint32_t]. *)
Definition GetOffset (slot : TupleSlot) : Z :=
  wrap32 (Z.land (bytes_ slot) (BLOCK_SIZE - 1)).

(** Modelled from the spec: a [RawBlock] (storage_defs.h) starts with the
    32-bit field [layout_version_]. *)
Definition layout_version_addr (block : Z) : Z := block.

(** Modelled from the spec: the 32-bit field [num_records_] of a
    [RawBlock] follows [layout_version_]. *)
Definition num_records_addr (block : Z) : Z := block + 4.

(** Modelled from the spec: [content_] of a [RawBlock] follows
    [num_records_]. *)
Definition content_addr (block : Z) : Z := block + 8.

(** The value of [block->num_records_]. *)
Definition num_records_ (m : mem) (block : Z) : Z :=
  load_u32 m (num_records_addr block).

(** [slot.GetBlock()->num_records_--] on the [uint32_t] counter. *)
Definition num_records_decrement (m : mem) (block : Z) : mem :=
  store_u32 m (num_records_addr block) (wrap32 (num_records_ m block - 1)).

(** ** TupleAccessStrategy *)

Definition PRESENCE_COLUMN_ID : nat := 0.

Module MiniBlock.

(** [PresenceBitmap()]: the bitmap is the start of [varlen_contents_], the
    first member of the mini block. *)
Definition PresenceBitmap (this : Z) : Z := this.

(** [ColumnStart(layout, col)]. *)
Definition ColumnStart (this : Z) (layout : BlockLayout) (col : nat) : outcome Z :=
  s <- AttrSize layout col ;;
  Done (AlignedPtr s (this + SizeInBytes (NumSlots layout))).

End MiniBlock.

Module Block.

(** [NumSlots()] is the first word of [block_.content_]; this is its
    address. *)
Definition NumSlots (this : Z) : Z := content_addr this.

(** [AttrOffets()]: [&NumSlots() + 1]. *)
Definition AttrOffets (this : Z) : Z := NumSlots this + 4.

(** [NumAttrs(layout)]: [AttrOffets() + layout.NumCols()], as an address. *)
Definition NumAttrs (this : Z) (layout : BlockLayout) : Z :=
  AttrOffets this + 4 * NumCols layout.

(** [AttrSizes(layout)]: [&NumAttrs(layout) + 1], as an address. *)
Definition AttrSizes (this : Z) (layout : BlockLayout) : Z :=
  NumAttrs this layout + 2.

(** [Column(offset)]: the mini block at [this + AttrOffets()[offset]]. *)
Definition Column (m : mem) (this : Z) (offset : nat) : Z :=
  this + load_u32 m (AttrOffets this + 4 * Z.of_nat offset).

End Block.

Record TupleAccessStrategy : Type := mkTupleAccessStrategy {
  layout_ : BlockLayout;
  column_offsets_ : list Z
}.

Definition ColumnNullBitmap (m : mem) (block : Z) (col : nat) : Z :=
  MiniBlock.PresenceBitmap (Block.Column m block col).

Definition ColumnStart (tas : TupleAccessStrategy) (m : mem) (block : Z)
    (col : nat) : outcome Z :=
  MiniBlock.ColumnStart (Block.Column m block col) (layout_ tas) col.

(** The address [ColumnStart(block, col) + AttrSize(col) * offset]; the
    product is computed in [uint32_t]. *)
Definition attr_address (tas : TupleAccessStrategy) (m : mem)
    (slot : TupleSlot) (col : nat) : outcome Z :=
  start <- ColumnStart tas m (GetBlock slot) col ;;
  s <- AttrSize (layout_ tas) col ;;
  Done (start + wrap32 (s * GetOffset slot)).

Definition AccessWithNullCheck (tas : TupleAccessStrategy) (m : mem)
    (slot : TupleSlot) (col : nat) : outcome Z :=
  if negb (Test m (ColumnNullBitmap m (GetBlock slot) col) (GetOffset slot))
  then Done nullptr
  else attr_address tas m slot col.

Definition AccessForceNotNull (tas : TupleAccessStrategy) (m : mem)
    (slot : TupleSlot) (col : nat) : outcome (Z * mem) :=
  let bitmap := ColumnNullBitmap m (GetBlock slot) col in
  let m :=
    if negb (Test m bitmap (GetOffset slot))
    then snd (Flip m bitmap (GetOffset slot) false)
    else m in
  p <- attr_address tas m slot col ;;
  Done (p, m).

Definition SetNull (tas : TupleAccessStrategy) (m : mem) (slot : TupleSlot)
    (col : nat) : mem :=
  let '(flipped, m) :=
    Flip m (ColumnNullBitmap m (GetBlock slot) col) (GetOffset slot) true in
  if flipped && bool_decide (col = PRESENCE_COLUMN_ID)
  then num_records_decrement m (GetBlock slot)
  else m.

(** The address of the attribute of a slot in column [col], without the
    32-bit wrap-around of the product. *)
Definition slot_attr_address (tas : TupleAccessStrategy) (slot : TupleSlot)
    (col : nat) (m : mem) : Z :=
  AlignedPtr (attr_size_of (layout_ tas) col)
    (Block.Column m (GetBlock slot) col + SizeInBytes (NumSlots (layout_ tas)))
  + attr_size_of (layout_ tas) col * GetOffset slot.

(** The bytes in front of the mini blocks of a block: the three 32-bit
    fields, the attribute offsets, the 16-bit attribute count and the
    attribute sizes (the header layout documented in the class). *)
Definition block_header_size (layout : BlockLayout) : Z :=
  Block.AttrSizes 0 layout + NumCols layout.

(** The mini block of column [col] lies behind the block header. *)
Definition column_in_content (tas : TupleAccessStrategy) (m : mem)
    (block : Z) (col : nat) : bool :=
  block_header_size (layout_ tas) <=? Block.Column m block col - block.

(** ** ObjectPool *)

Module ObjectPool.

(** Modelled from the spec: the [Allocator] template parameter
    (common/allocator.h is not among the sources); [New], [Reuse] and
    [Delete] act on the state of the allocator, objects are addresses. *)
Class Allocator (A : Type) : Type := {
  New : A -> Z * A;
  Reuse : A -> Z -> A;
  Delete : A -> Z -> A
}.

(** Modelled from the spec: [ConcurrentQueue<T *>::Enqueue] (the header of
    the queue is not among the sources), used sequentially: the queue is
    first-in first-out. *)
Definition Enqueue (q : list Z) (obj : Z) : list Z := q ++ [obj].

(** Modelled from the spec: [ConcurrentQueue<T *>::Dequeue], which fails
    on an empty queue. *)
Definition Dequeue (q : list Z) : option (Z * list Z) :=
  match q with
  | [] => None
  | obj :: q' => Some (obj, q')
  end.

(** Modelled from the spec: [ConcurrentQueue<T *>::UnsafeSize]. *)
Definition UnsafeSize (q : list Z) : Z := Z.of_nat (length q).

Record t (A : Type) : Type := mk {
  alloc_ : A;
  reuse_queue_ : list Z;
  reuse_limit_ : Z
}.
Arguments mk {A}.
Arguments alloc_ {A}.
Arguments reuse_queue_ {A}.
Arguments reuse_limit_ {A}.

Section Pool.
Context {A : Type} `{Allocator A}.

(** [ObjectPool(reuse_limit)]. *)
Definition create (alloc : A) (reuse_limit : Z) : t A :=
  mk alloc [] reuse_limit.

(** [Get()]. *)
Definition Get (pool : t A) : Z * t A :=
  match Dequeue (reuse_queue_ pool) with
  | None =>
      let '(result, alloc) := New (alloc_ pool) in
      (result, mk alloc (reuse_queue_ pool) (reuse_limit_ pool))
  | Some (result, q) =>
      (result, mk (Reuse (alloc_ pool) result) q (reuse_limit_ pool))
  end.

(** [Release(obj)]. *)
Definition Release (pool : t A) (obj : Z) : t A :=
  if UnsafeSize (reuse_queue_ pool) >? reuse_limit_ pool
  then mk (Delete (alloc_ pool) obj) (reuse_queue_ pool) (reuse_limit_ pool)
  else mk (alloc_ pool) (Enqueue (reuse_queue_ pool) obj) (reuse_limit_ pool).

(** A sequence of calls on a pool. *)
Inductive call : Type :=
| CallGet
| CallRelease (obj : Z).

Definition run_call (pool : t A) (c : call) : t A :=
  match c with
  | CallGet => snd (Get pool)
  | CallRelease obj => Release pool obj
  end.

Definition run (pool : t A) (calls : list call) : t A :=
  fold_left run_call calls pool.

End Pool.

(** A bump allocator that records the objects it has handed out and not
    yet deleted, as an instance for the examples. *)
Record bump : Type := mkBump { next_ : Z; live_ : list Z }.

#[global] Instance bump_allocator : Allocator bump := {
  New a := (next_ a, mkBump (next_ a + 8) (next_ a :: live_ a));
  Reuse a _ := a;
  Delete a obj := mkBump (next_ a) (filter (fun x => x ≠ obj) (live_ a))
}.

End ObjectPool.

(** ** UndoRecord *)

Definition load_u64 : mem -> Z -> Z := load_uint 8.
Definition store_u64 : mem -> Z -> Z -> mem := store_uint 8.

Module UndoRecord.

(** Modelled from the spec: an [UndoRecord] (delta_record.h is not among the
    sources) is [{ next, timestamp, table, slot, payload }]; the pointer
    [next_] is its first field. *)
Definition next_addr (this : Z) : Z := this.

(** Modelled from the spec: the 64-bit [timestamp_] follows [next_]. *)
Definition timestamp_addr (this : Z) : Z := this + 8.

(** Modelled from the spec: the pointer [table_] follows [timestamp_]. *)
Definition table_addr (this : Z) : Z := this + 16.

(** Modelled from the spec: the one-word [slot_] follows [table_]. *)
Definition slot_addr (this : Z) : Z := this + 24.

(** Modelled from the spec: [varlen_contents_], the payload row, follows
    [slot_]. *)
Definition varlen_contents_ (this : Z) : Z := this + 32.

(** [UndoRecord::Initialize(head, timestamp, slot, table, initializer)]. *)
Definition Initialize (sizeof_ProjectedRow : Z) (m : mem) (head timestamp : Z)
    (slot : TupleSlot) (table : Z) (initializer : ProjectedRowInitializer)
    : outcome (Z * mem) :=
  let result := head in
  let m := store_u64 m (next_addr result) nullptr in
  let m := store_u64 m (timestamp_addr result) timestamp in
  let m := store_u64 m (table_addr result) table in
  let m := store_u64 m (slot_addr result) (bytes_ slot) in
  row <- InitializeRow sizeof_ProjectedRow initializer m (varlen_contents_ result) ;;
  Done (result, snd row).

End UndoRecord.

(** ** More of TupleAccessStrategy and ObjectPool *)

(** [TupleAccessStrategy::AccessWithoutNullCheck(slot, col)]. *)
Definition AccessWithoutNullCheck (tas : TupleAccessStrategy) (m : mem)
    (slot : TupleSlot) (col : nat) : outcome Z :=
  TERRIER_ASSERT (bool_decide (col = PRESENCE_COLUMN_ID))
    "Currently this should only be called on the presence column by the DataTable." ;;;
  attr_address tas m slot col.

(** [n] calls of [Get] in a row: the objects they return, in order, and
    the pool they leave. *)
Fixpoint get_many {A : Type} `{ObjectPool.Allocator A} (n : nat)
    (pool : ObjectPool.t A) : list Z * ObjectPool.t A :=
  match n with
  | O => ([], pool)
  | S n' =>
      let '(obj, pool) := ObjectPool.Get pool in
      let '(objs, pool) := get_many n' pool in
      (obj :: objs, pool)
  end.

(** The attribute sizes of a layout do not increase with the column id. *)
Fixpoint non_increasing (sizes : list Z) : bool :=
  match sizes with
  | a :: (b :: _) as rest => (b <=? a) && non_increasing rest
  | _ => true
  end.

(** ** Examples *)

(** A source row at address 64 and the memory that holds it, for the
    examples: the row of columns 1 and 3 of the layout [8; 8; 4; 2; 1]. *)
Definition example_row_mem : mem :=
  match InitializeRow 8 (mkInitializer 48 [1; 3]%nat [32; 40])
          (fun _ => Byte.xff) 64 with
  | Done (_, m) => m
  | _ => fun _ => Byte.xff
  end.

(** A block at address [2 ^ 20] for the examples, laid out for the layout
    [8; 4] with 10 slots: the mini blocks of columns 0 and 1 at offsets 24
    and 112, one record, and the presence bit of slot 3 set. *)
Definition example_tas : TupleAccessStrategy :=
  mkTupleAccessStrategy (mkBlockLayout [8; 4] 10) [24; 112].

Definition example_slot : TupleSlot := mkTupleSlot (2 ^ 20 + 3).

Definition example_free_block : mem :=
  let block := 2 ^ 20 in
  let m : mem := fun _ => Byte.x00 in
  let m := store_u32 m (content_addr block) 10 in
  let m := store_u32 m (Block.AttrOffets block) 24 in
  store_u32 m (Block.AttrOffets block + 4) 112.

Definition example_live_block : mem :=
  let block := 2 ^ 20 in
  let m := store_u32 example_free_block (num_records_addr block) 1 in
  store_u8 m (block + 24) 8.

(** * Properties *)

(** ** Arithmetic of padding *)

Lemma wrap32_small z : 0 <= z < 2 ^ 32 -> wrap32 z = z.
Proof. intros Hz. unfold wrap32. now apply Z.mod_small. Qed.

Lemma wrap32_range z : 0 <= wrap32 z < 2 ^ 32.
Proof. unfold wrap32. apply Z.mod_pos_bound. lia. Qed.

Lemma pad_to_bounds a x :
  0 < a -> x <= Reference.pad_to a x < x + a.
Proof.
  intros Ha. unfold Reference.pad_to.
  pose proof (Z.div_mod (x + a - 1) a ltac:(lia)) as Hdm.
  pose proof (Z.mod_pos_bound (x + a - 1) a Ha) as Hr.
  lia.
Qed.

Lemma pad_to_aligned a x : 0 < a -> Reference.pad_to a x mod a = 0.
Proof.
  intros Ha. unfold Reference.pad_to.
  rewrite Z.mul_comm. apply Z.mod_mul. lia.
Qed.

Lemma PadUpToSize_pad_to w x :
  0 < w -> 0 <= x -> x + w <= 2 ^ 32 ->
  PadUpToSize w x = Reference.pad_to w x.
Proof.
  intros Hw Hx Hb. unfold PadUpToSize, Reference.pad_to.
  pose proof (Z.div_mod x w ltac:(lia)) as Hdm.
  pose proof (Z.mod_pos_bound x w Hw) as Hr.
  destruct (Z.eqb_spec (x mod w) 0) as [H0 | H0].
  - assert (Hq : (x + w - 1) / w = x / w).
    { symmetry. apply (Z.div_unique _ _ _ (w - 1)); lia. }
    rewrite Hq. lia.
  - assert (Hq : (x + w - 1) / w = x / w + 1).
    { symmetry. apply (Z.div_unique _ _ _ (x mod w - 1)); lia. }
    rewrite Hq, wrap32_small by lia. lia.
Qed.

Lemma SizeInBytes_bitmap_bytes n :
  0 <= n < 2 ^ 32 -> SizeInBytes n = Reference.bitmap_bytes n.
Proof.
  intros Hn. unfold SizeInBytes, Reference.bitmap_bytes.
  pose proof (Z.div_mod n 8 ltac:(lia)) as Hdm.
  pose proof (Z.mod_pos_bound n 8 ltac:(lia)) as Hr.
  destruct (Z.eqb_spec (n mod 8) 0) as [H0 | H0].
  - apply (Z.div_unique _ _ _ 7); lia.
  - rewrite wrap32_small by lia.
    apply (Z.div_unique _ _ _ (n mod 8 - 1)); lia.
Qed.

(** ** Sorting the projection list *)

Lemma insert_asc_Permutation c l : Reference.insert_asc c l ≡ₚ c :: l.
Proof.
  induction l as [| d l IH]; simpl; [reflexivity |].
  destruct (c <=? d)%nat; [reflexivity |].
  rewrite IH. apply Permutation_swap.
Qed.

Lemma insert_asc_Sorted c l :
  Sorted Nat.le l -> Sorted Nat.le (Reference.insert_asc c l).
Proof.
  induction 1 as [| d l Hs IH Hd]; simpl.
  - repeat constructor.
  - destruct (Nat.leb_spec c d) as [Hcd | Hcd].
    + constructor; [constructor; assumption | constructor; exact Hcd].
    + constructor; [exact IH |].
      destruct Hd as [| e l' Hde]; simpl.
      * constructor. lia.
      * destruct (c <=? e)%nat; constructor; [lia | exact Hde].
Qed.

Lemma sort_asc_Permutation l : Reference.sort_asc l ≡ₚ l.
Proof.
  induction l as [| c l IH]; simpl; [reflexivity |].
  rewrite insert_asc_Permutation. now rewrite IH.
Qed.

Lemma sort_asc_Sorted l : Sorted Nat.le (Reference.sort_asc l).
Proof.
  induction l as [| c l IH]; simpl; [constructor |].
  now apply insert_asc_Sorted.
Qed.

Lemma std_sort_Permutation l : std_sort l ≡ₚ l.
Proof. apply merge_sort_Permutation. Qed.

Lemma std_sort_Sorted l : Sorted Nat.le (std_sort l).
Proof. apply (Sorted_merge_sort Nat.le). Qed.

(** An ascending sort of numbers has one result. *)
Lemma std_sort_sort_asc l : std_sort l = Reference.sort_asc l.
Proof.
  apply (Sorted_unique Nat.le).
  - apply std_sort_Sorted.
  - apply sort_asc_Sorted.
  - now rewrite std_sort_Permutation, sort_asc_Permutation.
Qed.

Lemma std_sort_length l : length (std_sort l) = length l.
Proof. now rewrite std_sort_Permutation. Qed.

(** ** The constructor computes the plan of the specification *)

Lemma vec_at_lookup {A} (v : list A) i x : v !! i = Some x -> vec_at v i = Done x.
Proof. intros H. unfold vec_at. now rewrite H. Qed.

Lemma valid_attr_size_cases s :
  valid_attr_size s = true -> s = 1 \/ s = 2 \/ s = 4 \/ s = 8 \/ s = 16.
Proof. unfold valid_attr_size. lia. Qed.

Section InitializerPlan.

Variable sizeof_ProjectedRow : Z.
Variable layout : BlockLayout.
Hypothesis Hlayout : valid_layout layout = true.

Let attr := attr_size_of layout.
Let in_layout (c : nat) : Prop := (c < length (attr_sizes_ layout))%nat.

Lemma NumCols_bound : NumCols layout <= 65535.
Proof. unfold valid_layout in Hlayout. lia. Qed.

Lemma NumSlots_range : 0 <= NumSlots layout < 2 ^ 32.
Proof. unfold valid_layout in Hlayout. lia. Qed.

Lemma AttrSize_in_layout c : in_layout c -> AttrSize layout c = Done (attr c).
Proof.
  intros Hc. unfold AttrSize. apply vec_at_lookup.
  unfold attr, attr_size_of.
  destruct (lookup_lt_is_Some_2 (attr_sizes_ layout) c Hc) as [s Hs].
  rewrite Hs. f_equal. symmetry. now apply nth_lookup_Some with (d := 0).
Qed.

Lemma attr_valid c : in_layout c -> valid_attr_size (attr c) = true.
Proof.
  intros Hc. unfold valid_layout in Hlayout.
  apply andb_prop in Hlayout as [Hl _]. apply andb_prop in Hl as [Hl _].
  apply andb_prop in Hl as [_ Hall].
  rewrite forallb_forall in Hall. apply Hall.
  unfold attr, attr_size_of. now apply nth_In.
Qed.

Lemma attr_range c : in_layout c -> 1 <= attr c <= 16.
Proof. intros Hc. pose proof (valid_attr_size_cases _ (attr_valid c Hc)). lia. Qed.

Lemma next_attr_range rest : Forall in_layout rest -> 1 <= next_attr layout rest <= 16.
Proof.
  intros Hrest. destruct rest as [| c rest]; simpl; [lia |].
  apply attr_range. now inversion Hrest.
Qed.

Lemma ctor_step_place pre c rest done zeros sz :
  Forall in_layout (c :: rest) ->
  length done = length pre ->
  0 <= sz -> sz + 32 <= 2 ^ 32 ->
  ctor_step layout (pre ++ c :: rest) (length pre) (done ++ 0 :: zeros, sz)
  = Done (done ++ sz :: zeros,
          Reference.pad_to (next_attr layout rest) (sz + attr c)).
Proof.
  intros Hin Hlen Hsz Hb.
  inversion Hin as [| ? ? Hc Hrest]; subst.
  pose proof (attr_range c Hc) as Hac.
  pose proof (next_attr_range rest Hrest) as Hnext.
  unfold ctor_step.
  rewrite decide_True by (rewrite length_app; simpl; lia). simpl obind.
  assert (Hnx : (if decide (length pre = (length (pre ++ c :: rest) - 1)%nat)
                 then Done 8
                 else (c' <- vec_at (pre ++ c :: rest) (length pre + 1) ;;
                       AttrSize layout c')) = Done (next_attr layout rest)).
  { rewrite length_app. simpl length.
    destruct rest as [| c' rest'].
    - rewrite decide_True by (simpl; lia). reflexivity.
    - rewrite decide_False by (simpl; lia).
      rewrite (vec_at_lookup _ _ c').
      + simpl. apply AttrSize_in_layout. inversion Hrest; assumption.
      + rewrite lookup_app_r by lia.
        replace (length pre + 1 - length pre)%nat with 1%nat by lia.
        reflexivity. }
  rewrite Hnx. simpl obind.
  rewrite (vec_at_lookup _ _ c) by apply list_lookup_middle, eq_refl.
  simpl obind. rewrite (AttrSize_in_layout c Hc). simpl obind.
  rewrite Z.mod_small by lia.
  rewrite wrap32_small by lia.
  rewrite PadUpToSize_pad_to by lia.
  f_equal. f_equal.
  rewrite insert_app_r_alt by lia.
  replace (length pre - length done)%nat with 0%nat by lia.
  reflexivity.
Qed.

Lemma place_bounds rest sz :
  Forall in_layout rest -> 0 <= sz ->
  sz <= (Reference.place (map attr rest) sz).2
     <= sz + 31 * Z.of_nat (length rest).
Proof.
  revert sz. induction rest as [| c rest IH]; intros sz Hin Hsz; simpl.
  - lia.
  - inversion Hin as [| ? ? Hc Hrest]; subst.
    pose proof (attr_range c Hc) as Hac.
    pose proof (next_attr_range rest Hrest) as Hnext.
    assert (Hnx : match map attr rest with [] => 8 | s' :: _ => s' end
                  = next_attr layout rest) by (destruct rest; reflexivity).
    rewrite Hnx.
    pose proof (pad_to_bounds (next_attr layout rest) (sz + attr c) ltac:(lia)) as Hp.
    specialize (IH (Reference.pad_to (next_attr layout rest) (sz + attr c)) Hrest ltac:(lia)).
    destruct (Reference.place (map attr rest) _) as [offs total]. simpl in *. lia.
Qed.

Lemma ctor_loop_place rest : forall pre done sz,
  Forall in_layout rest ->
  length done = length pre ->
  0 <= sz -> sz + 32 * Z.of_nat (length rest) <= 2 ^ 32 ->
  for_loop (ctor_step layout (pre ++ rest)) (length rest) (length pre)
    (done ++ repeat 0 (length rest), sz)
  = Done (done ++ (Reference.place (map attr rest) sz).1,
          (Reference.place (map attr rest) sz).2).
Proof.
  induction rest as [| c rest IH]; intros pre done sz Hin Hlen Hsz Hb.
  - simpl. reflexivity.
  - inversion Hin as [| ? ? Hc Hrest]; subst.
    pose proof (attr_range c Hc) as Hac.
    pose proof (next_attr_range rest Hrest) as Hnext.
    cbn [for_loop length repeat].
    rewrite ctor_step_place by (try assumption; cbn [length] in Hb; lia).
    cbn [obind].
    pose proof (pad_to_bounds (next_attr layout rest) (sz + attr c) ltac:(lia)) as Hp.
    specialize (IH (pre ++ [c]) (done ++ [sz])
                  (Reference.pad_to (next_attr layout rest) (sz + attr c))).
    rewrite <- !app_assoc in IH. cbn [app] in IH.
    rewrite !length_app in IH. cbn [length] in IH.
    replace (length pre + 1)%nat with (S (length pre)) in IH by lia.
    rewrite IH; [| assumption | lia | lia | cbn [length] in Hb; lia].
    cbn [map Reference.place].
    assert (Hnx : match map attr rest with [] => 8 | s' :: _ => s' end
                  = next_attr layout rest) by (destruct rest; reflexivity).
    rewrite Hnx.
    destruct (Reference.place (map attr rest) _) as [offs total].
    reflexivity.
Qed.

End InitializerPlan.

Lemma valid_projection_facts layout col_ids :
  valid_projection layout col_ids = true ->
  col_ids <> [] /\ NoDup col_ids /\
  Forall (fun c => (c < length (attr_sizes_ layout))%nat) col_ids.
Proof.
  unfold valid_projection. intros H.
  apply andb_prop in H as [H Hall]. apply andb_prop in H as [Hne Hnd].
  apply negb_true_iff, bool_decide_eq_false in Hne.
  apply bool_decide_eq_true in Hnd.
  repeat split; try assumption.
  apply Forall_forall. intros c Hc.
  rewrite forallb_forall in Hall.
  specialize (Hall c (proj1 (list_elem_of_In _ _) Hc)).
  unfold NumCols in Hall. lia.
Qed.

Lemma valid_projection_length layout col_ids :
  valid_projection layout col_ids = true ->
  (1 <= length col_ids <= length (attr_sizes_ layout))%nat.
Proof.
  intros H. destruct (valid_projection_facts _ _ H) as (Hne & Hnd & Hall).
  split.
  - destruct col_ids; [congruence | simpl; lia].
  - rewrite <- (List.length_seq (length (attr_sizes_ layout)) 0).
    apply submseteq_length, NoDup_submseteq; [assumption |].
    intros c Hc. rewrite Forall_forall in Hall.
    apply elem_of_seq. specialize (Hall c Hc). lia.
Qed.

(** The initializer the constructor builds from a valid projection list:
    the sorted ids, and the offsets and size of the reference plan. *)
Lemma ProjectedRowInitializer_new_plan hdr layout col_ids :
  valid_layout layout = true ->
  valid_projection layout col_ids = true ->
  0 <= hdr <= 2 ^ 16 ->
  ProjectedRowInitializer_new hdr layout col_ids
  = Done (mkInitializer
            (Reference.plan hdr (attr_size_of layout) col_ids).2
            (std_sort col_ids)
            (Reference.plan hdr (attr_size_of layout) col_ids).1).
Proof.
  intros Hlayout Hproj Hhdr.
  destruct (valid_projection_facts _ _ Hproj) as (Hne & Hnd & Hall).
  pose proof (valid_projection_length _ _ Hproj) as Hlen.
  pose proof (NumCols_bound layout Hlayout) as Hcols. unfold NumCols in Hcols.
  unfold ProjectedRowInitializer_new, Reference.plan.
  rewrite <- std_sort_sort_asc.
  rewrite bool_decide_eq_false_2 by assumption.
  cbn [negb TERRIER_ASSERT obind].
  replace (Z.of_nat (length (@nil nat)) <? NumCols layout) with true
    by (symmetry; apply Z.ltb_lt; unfold NumCols; cbn [length]; lia).
  cbn [obind].
  assert (Hsorted : Forall (fun c => (c < length (attr_sizes_ layout))%nat)
                      (std_sort col_ids))
    by now rewrite std_sort_Permutation.
  pose proof (std_sort_length col_ids) as Hsl.
  destruct (std_sort col_ids) as [| c0 rest] eqn:Hs; [simpl in Hsl; lia |].
  pose proof Hsorted as Hsorted'.
  inversion Hsorted' as [| ? ? Hc0 Hrest]; subst.
  pose proof (attr_range layout Hlayout c0 Hc0) as Hac0.
  cbn [vec_at lookup list_lookup obind hd].
  rewrite (AttrSize_in_layout layout c0 Hc0). cbn [obind].
  set (n := Z.of_nat (length (c0 :: rest))).
  assert (Hn : 1 <= n <= 65535) by (unfold n; lia).
  rewrite (wrap32_small (n * 2)), (wrap32_small (n * 4)), (wrap32_small n) by lia.
  rewrite (wrap32_small (hdr + n * 2)) by lia.
  rewrite (PadUpToSize_pad_to 4) by lia.
  replace (hdr + n * 2) with (hdr + 2 * n) by lia.
  pose proof (pad_to_bounds 4 (hdr + 2 * n) ltac:(lia)) as Hp1.
  set (size1 := Reference.pad_to 4 (hdr + 2 * n)) in *.
  rewrite (wrap32_small (size1 + n * 4)) by lia.
  rewrite (PadUpToSize_pad_to 8) by lia.
  replace (size1 + n * 4) with (size1 + 4 * n) by lia.
  pose proof (pad_to_bounds 8 (size1 + 4 * n) ltac:(lia)) as Hp2.
  set (size2 := Reference.pad_to 8 (size1 + 4 * n)) in *.
  rewrite SizeInBytes_bitmap_bytes by lia.
  assert (Hbm : 0 <= Reference.bitmap_bytes n <= n).
  { unfold Reference.bitmap_bytes.
    pose proof (Z.div_mod (n + 7) 8 ltac:(lia)).
    pose proof (Z.mod_pos_bound (n + 7) 8 ltac:(lia)). lia. }
  rewrite (wrap32_small (size2 + _)) by lia.
  rewrite (PadUpToSize_pad_to (attr_size_of layout c0)) by lia.
  pose proof (pad_to_bounds (attr_size_of layout c0)
                (size2 + Reference.bitmap_bytes n) ltac:(lia)) as Hp3.
  set (size3 := Reference.pad_to _ (size2 + Reference.bitmap_bytes n)) in *.
  pose proof (ctor_loop_place layout Hlayout (c0 :: rest) [] [] size3
                Hsorted eq_refl ltac:(lia)) as Hloop.
  cbn [app length] in Hloop.
  rewrite <- Hsl. cbn [length].
  assert (Hn' : n = Z.of_nat (S (length rest))) by reflexivity.
  rewrite Hloop by lia.
  reflexivity.
Qed.

(** ** Raw memory: loads after stores *)

Lemma agree_outside_refl lo hi m : agree_outside lo hi m m.
Proof. intros x _. reflexivity. Qed.

Lemma agree_outside_trans lo hi lo1 hi1 lo2 hi2 m1 m2 m3 :
  agree_outside lo1 hi1 m1 m2 -> agree_outside lo2 hi2 m2 m3 ->
  lo <= lo1 -> lo <= lo2 -> hi1 <= hi -> hi2 <= hi ->
  agree_outside lo hi m1 m3.
Proof.
  intros H12 H23 ? ? ? ? x Hx.
  rewrite H23 by lia. apply H12. lia.
Qed.

Lemma load_bytes_length m a n : length (load_bytes m a n) = n.
Proof. unfold load_bytes. now rewrite List.length_map, List.length_seq. Qed.

Lemma load_bytes_nth m a n i d :
  (i < n)%nat -> nth i (load_bytes m a n) d = m (a + Z.of_nat i).
Proof.
  intros Hi. unfold load_bytes.
  rewrite (nth_indep _ d (m (a + Z.of_nat 0)))
    by now rewrite List.length_map, List.length_seq.
  rewrite (map_nth (fun i => m (a + Z.of_nat i))).
  now rewrite seq_nth.
Qed.

Lemma load_bytes_agree m m' a n :
  (forall x, a <= x < a + Z.of_nat n -> m' x = m x) ->
  load_bytes m' a n = load_bytes m a n.
Proof.
  intros H. unfold load_bytes. apply map_ext_in.
  intros i Hi. apply in_seq in Hi. apply H. lia.
Qed.

Lemma store_bytes_outside m a bs :
  agree_outside a (a + Z.of_nat (length bs)) m (store_bytes m a bs).
Proof.
  intros x Hx. unfold store_bytes.
  destruct (Z.leb_spec a x), (Z.ltb_spec x (a + Z.of_nat (length bs)));
    simpl; try reflexivity; lia.
Qed.

Lemma store_bytes_inside m a bs i :
  (i < length bs)%nat ->
  store_bytes m a bs (a + Z.of_nat i) = nth i bs Byte.x00.
Proof.
  intros Hi. unfold store_bytes.
  destruct (Z.leb_spec a (a + Z.of_nat i)); [| lia].
  destruct (Z.ltb_spec (a + Z.of_nat i) (a + Z.of_nat (length bs))); [| lia].
  simpl. f_equal. lia.
Qed.

Lemma load_store_bytes m a bs :
  load_bytes (store_bytes m a bs) a (length bs) = bs.
Proof.
  apply (nth_ext _ _ Byte.x00 Byte.x00).
  - apply load_bytes_length.
  - intros i Hi. rewrite load_bytes_length in Hi.
    rewrite load_bytes_nth by assumption.
    now apply store_bytes_inside.
Qed.

Lemma load_uint_agree w m m' a :
  (forall x, a <= x < a + Z.of_nat w -> m' x = m x) ->
  load_uint w m' a = load_uint w m a.
Proof. intros H. unfold load_uint. f_equal. now apply load_bytes_agree. Qed.

Lemma load_uint_outside w lo hi m m' a :
  agree_outside lo hi m m' -> a + Z.of_nat w <= lo \/ hi <= a ->
  load_uint w m' a = load_uint w m a.
Proof.
  intros Hag Ha. apply load_uint_agree. intros x Hx. apply Hag. lia.
Qed.

Lemma store_uint_outside w m a v :
  agree_outside a (a + Z.of_nat w) m (store_uint w m a v).
Proof.
  unfold store_uint.
  pose proof (store_bytes_outside m a (le_split w v)) as H.
  now rewrite length_le_split in H.
Qed.

Lemma load_store_uint w m a v :
  load_uint w (store_uint w m a v) a = v mod 2 ^ (Z.of_nat w * 8).
Proof.
  unfold load_uint, store_uint.
  rewrite <- (length_le_split w v) at 2.
  rewrite load_store_bytes. apply le_combine_split.
Qed.

Lemma load_uint_range w m a : 0 <= load_uint w m a < 2 ^ (8 * Z.of_nat w).
Proof.
  unfold load_uint.
  pose proof (le_combine_bound (load_bytes m a w)) as H.
  now rewrite load_bytes_length in H.
Qed.

(** ** Loops that fill an array in memory *)

Lemma for_loop_ext {St} (body1 body2 : nat -> St -> outcome St) count :
  (forall i st, body1 i st = body2 i st) ->
  forall from st, for_loop body1 count from st = for_loop body2 count from st.
Proof.
  intros Hext. induction count as [| count IH]; intros from st; simpl.
  - reflexivity.
  - rewrite Hext. destruct (body2 from st); simpl; auto.
Qed.

Lemma vec_at_map {A B} (f : A -> B) (v : list A) i :
  vec_at (map f v) i = (x <- vec_at v i ;; Done (f x)).
Proof.
  unfold vec_at. change (map f v) with (f <$> v).
  rewrite list_lookup_fmap. now destruct (v !! i).
Qed.

(** The loop [for i: array()[i] = vals[i]] over elements of [w] bytes.  The
    address of the array is recomputed from memory at every iteration; it is
    required to be [base] whatever the loop has written so far. *)
Lemma store_array_loop (w : nat) (vals : list Z) (base_of : mem -> Z)
    (base : Z) (count : nat) : forall from m,
  (from + count <= length vals)%nat ->
  (forall m',
     agree_outside (base + Z.of_nat w * Z.of_nat from)
                   (base + Z.of_nat w * Z.of_nat (from + count)) m m' ->
     base_of m' = base) ->
  exists m',
    for_loop (fun i m => v <- vec_at vals i ;;
                Done (store_uint w m (base_of m + Z.of_nat w * Z.of_nat i) v))
             count from m = Done m' /\
    agree_outside (base + Z.of_nat w * Z.of_nat from)
                  (base + Z.of_nat w * Z.of_nat (from + count)) m m' /\
    forall i v, (from <= i < from + count)%nat -> vals !! i = Some v ->
      load_uint w m' (base + Z.of_nat w * Z.of_nat i)
      = v mod 2 ^ (Z.of_nat w * 8).
Proof.
  induction count as [| count IH]; intros from m Hlen Hbase.
  - exists m. split; [reflexivity |]. split; [apply agree_outside_refl |].
    intros i v Hi. lia.
  - destruct (lookup_lt_is_Some_2 vals from ltac:(lia)) as [v0 Hv0].
    cbn [for_loop]. rewrite (vec_at_lookup _ _ _ Hv0). cbn [obind].
    rewrite (Hbase m (agree_outside_refl _ _ _)).
    set (m1 := store_uint w m (base + Z.of_nat w * Z.of_nat from) v0).
    pose proof (store_uint_outside w m (base + Z.of_nat w * Z.of_nat from) v0)
      as Hm1. fold m1 in Hm1.
    destruct (IH (S from) m1 ltac:(lia)) as (m' & Hrun & Hag & Hread).
    { intros m' Hm'. apply Hbase.
      eapply agree_outside_trans; [exact Hm1 | exact Hm' | nia ..]. }
    exists m'. split; [exact Hrun |]. split.
    + eapply agree_outside_trans; [exact Hm1 | exact Hag | nia ..].
    + intros i v Hi Hv.
      destruct (decide (i = from)) as [-> | Hne].
      * rewrite (load_uint_outside w _ _ m1 m' _ Hag) by nia.
        unfold m1. rewrite load_store_uint. congruence.
      * apply Hread; [lia | assumption].
Qed.

(** ** Bitmaps *)

Lemma load_u8_byte m a : load_u8 m a = byte.unsigned (m a).
Proof.
  unfold load_u8, load_uint, load_bytes. simpl.
  rewrite Z.add_0_r. apply Z.lor_0_r.
Qed.

Lemma Clear_outside m bitmap n :
  agree_outside bitmap (bitmap + Z.of_nat (Z.to_nat (SizeInBytes n))) m
    (Clear m bitmap n).
Proof.
  unfold Clear, TERRIER_MEMSET0.
  pose proof (store_bytes_outside m bitmap
                (repeat Byte.x00 (Z.to_nat (SizeInBytes n)))) as H.
  now rewrite repeat_length in H.
Qed.

Lemma Test_Clear m bitmap n pos :
  0 <= pos < n -> n < 2 ^ 32 -> Test (Clear m bitmap n) bitmap pos = false.
Proof.
  intros Hpos Hn. unfold Test. rewrite load_u8_byte.
  unfold Clear, TERRIER_MEMSET0.
  rewrite SizeInBytes_bitmap_bytes by lia. unfold Reference.bitmap_bytes.
  assert (Hk : 0 <= pos / 8 < (n + 7) / 8).
  { pose proof (Z.div_mod pos 8 ltac:(lia)).
    pose proof (Z.mod_pos_bound pos 8 ltac:(lia)).
    pose proof (Z.div_mod (n + 7) 8 ltac:(lia)).
    pose proof (Z.mod_pos_bound (n + 7) 8 ltac:(lia)). lia. }
  replace (pos / 8) with (Z.of_nat (Z.to_nat (pos / 8))) by lia.
  rewrite store_bytes_inside by (rewrite repeat_length; lia).
  rewrite nth_repeat. reflexivity.
Qed.

Lemma AlignedPtr_bounds s p : 0 < s -> p <= AlignedPtr s p < p + s.
Proof.
  intros Hs. unfold AlignedPtr.
  pose proof (Z.mod_pos_bound p s Hs).
  destruct (Z.eqb_spec (p mod s) 0); lia.
Qed.

(** ** InitializeRow *)

Section InitializeRowSpec.

Variable sizeof_ProjectedRow : Z.
Hypothesis Hhdr : 6 <= sizeof_ProjectedRow.

Variable init : ProjectedRowInitializer.
Let n : Z := Z.of_nat (length (col_ids_ init)).
Hypothesis Hn : n <= 65535.
Hypothesis Hoffsets : length (offsets_ init) = length (col_ids_ init).

Variable m : mem.
Variable head : Z.
Hypothesis Hhead : head mod 8 = 0.

Let ids_at := head + sizeof_ProjectedRow.
Let offsets_at := AlignedPtr 4 (ids_at + 2 * n).
Let bitmap_at := AlignedPtr 8 (offsets_at + 4 * n).

Lemma InitializeRow_spec :
  exists m',
    InitializeRow sizeof_ProjectedRow init m head = Done (head, m') /\
    Size m' head = size_ init mod 2 ^ 32 /\
    NumColumns m' head = n /\
    (forall i c, col_ids_ init !! i = Some c ->
       ColumnId sizeof_ProjectedRow m' head i = Z.of_nat c mod 2 ^ 16) /\
    (forall i o, offsets_ init !! i = Some o ->
       AttrValueOffset sizeof_ProjectedRow m' head i = o mod 2 ^ 32) /\
    (forall i, (i < length (col_ids_ init))%nat ->
       Test m' (Bitmap sizeof_ProjectedRow m' head) (Z.of_nat i) = false) /\
    agree_outside head (bitmap_at + SizeInBytes n) m m'.
Proof.
  pose proof (AlignedPtr_bounds 4 (ids_at + 2 * n) ltac:(lia)) as HA.
  pose proof (AlignedPtr_bounds 8 (offsets_at + 4 * n) ltac:(lia)) as HB.
  fold offsets_at in HA. fold bitmap_at in HB.
  assert (Hn0 : 0 <= n) by (unfold n; lia).
  unfold InitializeRow.
  rewrite (proj2 (Z.eqb_eq _ _) Hhead). cbn [TERRIER_ASSERT obind].
  fold n.
  unfold wrap16. rewrite (Z.mod_small n) by lia.
  set (m1 := store_u32 m head (size_ init)).
  set (m2 := store_u16 m1 (head + 4) n).
  pose proof (store_uint_outside 4 m head (size_ init)) as Hm1.
  pose proof (store_uint_outside 2 m1 (head + 4) n) as Hm2.
  fold m1 in Hm1. fold m2 in Hm2.
  assert (Hnum2 : NumColumns m2 head = n).
  { unfold NumColumns, m2. unfold load_u16, store_u16.
    rewrite load_store_uint. apply Z.mod_small. simpl. lia. }
  (* the loop over the column ids *)
  rewrite (for_loop_ext _
             (fun i m0 => v <- vec_at (map Z.of_nat (col_ids_ init)) i ;;
                Done (store_uint 2 m0
                        ((fun _ => ids_at) m0 + Z.of_nat 2 * Z.of_nat i) v)))
    by (intros i st; rewrite vec_at_map;
        destruct (vec_at (col_ids_ init) i); reflexivity).
  destruct (store_array_loop 2 (map Z.of_nat (col_ids_ init))
              (fun _ => ids_at) ids_at (length (col_ids_ init)) 0 m2)
    as (m3 & Hrun3 & Hm3 & Hread3);
    [rewrite List.length_map; lia | reflexivity |].
  rewrite Hrun3. cbn [obind].
  change (Z.of_nat 2) with 2 in Hm3, Hread3.
  change (Z.of_nat (0 + length (col_ids_ init))) with n in Hm3.
  change (Z.of_nat 0) with 0 in Hm3.
  assert (Hnum3 : NumColumns m3 head = n).
  { rewrite <- Hnum2. unfold NumColumns, load_u16.
    apply (load_uint_outside 2 _ _ m2 m3 _ Hm3). simpl. lia. }
  (* the loop over the offsets *)
  rewrite (for_loop_ext _
             (fun i m0 => v <- vec_at (offsets_ init) i ;;
                Done (store_uint 4 m0
                        (AttrValueOffsets sizeof_ProjectedRow m0 head
                         + Z.of_nat 4 * Z.of_nat i) v)))
    by reflexivity.
  destruct (store_array_loop 4 (offsets_ init)
              (fun m0 => AttrValueOffsets sizeof_ProjectedRow m0 head)
              offsets_at (length (col_ids_ init)) 0 m3)
    as (m4 & Hrun4 & Hm4 & Hread4); [lia | |].
  { intros m' Hm'. unfold AttrValueOffsets, ColumnIds.
    replace (NumColumns m' head) with n; [reflexivity |].
    rewrite <- Hnum3. symmetry. unfold NumColumns, load_u16.
    apply (load_uint_outside 2 _ _ m3 m' _ Hm'). simpl. lia. }
  rewrite Hrun4. cbn [obind].
  change (Z.of_nat 4) with 4 in Hm4, Hread4.
  change (Z.of_nat (0 + length (col_ids_ init))) with n in Hm4.
  change (Z.of_nat 0) with 0 in Hm4.
  assert (Hnum4 : NumColumns m4 head = n).
  { rewrite <- Hnum3. unfold NumColumns, load_u16.
    apply (load_uint_outside 2 _ _ m3 m4 _ Hm4). simpl. lia. }
  assert (HB4 : Bitmap sizeof_ProjectedRow m4 head = bitmap_at).
  { unfold Bitmap, AttrValueOffsets, ColumnIds. now rewrite Hnum4. }
  rewrite HB4, Hnum4.
  set (m5 := Clear m4 bitmap_at n).
  pose proof (Clear_outside m4 bitmap_at n) as Hm5. fold m5 in Hm5.
  assert (Hbm : 0 <= SizeInBytes n).
  { rewrite SizeInBytes_bitmap_bytes by lia.
    apply Z.div_pos; lia. }
  rewrite Z2Nat.id in Hm5 by assumption.
  assert (Hnum5 : NumColumns m5 head = n).
  { rewrite <- Hnum4. unfold NumColumns, load_u16.
    apply (load_uint_outside 2 _ _ m4 m5 _ Hm5). lia. }
  assert (HA5 : AttrValueOffsets sizeof_ProjectedRow m5 head = offsets_at).
  { unfold AttrValueOffsets, ColumnIds. now rewrite Hnum5. }
  assert (HB5 : Bitmap sizeof_ProjectedRow m5 head = bitmap_at).
  { unfold Bitmap. now rewrite HA5, Hnum5. }
  exists m5. split; [reflexivity |].
  split; [| split; [exact Hnum5 | split; [| split; [| split]]]].
  - unfold Size, load_u32.
    rewrite (load_uint_outside 4 _ _ m4 m5 _ Hm5) by lia.
    rewrite (load_uint_outside 4 _ _ m3 m4 _ Hm4) by (simpl; lia).
    rewrite (load_uint_outside 4 _ _ m2 m3 _ Hm3) by (simpl; lia).
    rewrite (load_uint_outside 4 _ _ m1 m2 _ Hm2) by (simpl; lia).
    unfold m1, store_u32. apply load_store_uint.
  - intros i c Hc.
    pose proof (lookup_lt_Some _ _ _ Hc) as Hi.
    unfold ColumnId, ColumnIds, load_u16. fold ids_at.
    rewrite (load_uint_outside 2 _ _ m4 m5 _ Hm5) by (simpl; lia).
    rewrite (load_uint_outside 2 _ _ m3 m4 _ Hm4) by (simpl; lia).
    apply Hread3; [lia |].
    change (map Z.of_nat (col_ids_ init)) with (Z.of_nat <$> col_ids_ init).
    now rewrite list_lookup_fmap, Hc.
  - intros i o Ho.
    pose proof (lookup_lt_Some _ _ _ Ho) as Hi. rewrite Hoffsets in Hi.
    unfold AttrValueOffset, load_u32. rewrite HA5.
    rewrite (load_uint_outside 4 _ _ m4 m5 _ Hm5) by (simpl; lia).
    apply Hread4; [lia | assumption].
  - intros i Hi. rewrite HB5. unfold m5. apply Test_Clear; lia.
  - intros x Hx.
    rewrite Hm5 by lia. rewrite Hm4 by lia. rewrite Hm3 by lia.
    rewrite Hm2 by (simpl; lia). apply Hm1. simpl. lia.
Qed.

End InitializeRowSpec.

(** ** CopyProjectedRowLayout *)

Lemma load_uint_shift w m m' a a' :
  (forall k, 0 <= k < Z.of_nat w -> m' (a' + k) = m (a + k)) ->
  load_uint w m' a' = load_uint w m a.
Proof.
  intros H. unfold load_uint, load_bytes. f_equal.
  apply map_ext_in. intros i Hi. apply in_seq in Hi. apply H. lia.
Qed.

Lemma AlignedPtr_shift a base x :
  0 < a -> base mod a = 0 -> AlignedPtr a (base + x) = base + AlignedPtr a x.
Proof.
  intros Ha Hbase. unfold AlignedPtr.
  assert (Hmod : (base + x) mod a = x mod a).
  { rewrite Z.add_mod, Hbase, Z.add_0_l, Z.mod_mod by lia. reflexivity. }
  rewrite Hmod. destruct (x mod a =? 0); lia.
Qed.

Lemma mod_8_mod_4 z : z mod 8 = 0 -> z mod 4 = 0.
Proof.
  intros H. pose proof (Z.div_mod z 8 ltac:(lia)) as Hdm.
  replace z with ((2 * (z / 8)) * 4) by lia. apply Z.mod_mul. lia.
Qed.

Lemma Bitmap_header_bytes hdr m row :
  row mod 8 = 0 ->
  Bitmap hdr m row = row + header_bytes hdr (NumColumns m row).
Proof.
  intros Hrow. unfold Bitmap, AttrValueOffsets, ColumnIds, header_bytes.
  rewrite <- Z.add_assoc.
  rewrite (AlignedPtr_shift 4) by (try apply mod_8_mod_4; lia).
  rewrite <- Z.add_assoc.
  now rewrite (AlignedPtr_shift 8) by lia.
Qed.

Lemma header_bytes_bounds hdr n :
  0 <= n ->
  hdr + 2 * n <= AlignedPtr 4 (hdr + 2 * n) /\
  AlignedPtr 4 (hdr + 2 * n) + 4 * n <= header_bytes hdr n.
Proof.
  intros Hn. unfold header_bytes.
  pose proof (AlignedPtr_bounds 4 (hdr + 2 * n) ltac:(lia)).
  pose proof (AlignedPtr_bounds 8 (AlignedPtr 4 (hdr + 2 * n) + 4 * n) ltac:(lia)).
  lia.
Qed.

Section CopyLayoutSpec.

Variable sizeof_ProjectedRow : Z.
Hypothesis Hhdr : 6 <= sizeof_ProjectedRow.

Variable m : mem.
Variables head other : Z.
Hypothesis Hhead : head mod 8 = 0.
Hypothesis Hother : other mod 8 = 0.

Let n : Z := NumColumns m other.
Let header_size : Z := header_bytes sizeof_ProjectedRow n.
Let written : Z := header_size + SizeInBytes n.

(** The header and the bitmap of the source lie within its size, and
    the destination buffer, of that size, does not overlap the source. *)
Hypothesis Hsize : written <= Size m other.
Hypothesis Hdisjoint :
  head + Size m other <= other \/ other + Size m other <= head.

Lemma CopyProjectedRowLayout_spec :
  exists m',
    CopyProjectedRowLayout sizeof_ProjectedRow m head other = Done (head, m') /\
    (forall k, 0 <= k < header_size -> m' (head + k) = m (other + k)) /\
    Bitmap sizeof_ProjectedRow m' head = head + header_size /\
    (forall i, 0 <= i < n ->
       Test m' (Bitmap sizeof_ProjectedRow m' head) i = false) /\
    agree_outside head (head + written) m m'.
Proof.
  assert (Hn : 0 <= n < 2 ^ 16).
  { unfold n, NumColumns, load_u16.
    pose proof (load_uint_range 2 m (other + 4)) as H. simpl in H. lia. }
  destruct (header_bytes_bounds sizeof_ProjectedRow n ltac:(lia)) as [Hb1 Hb2].
  fold header_size in Hb2.
  assert (Hbm : 0 <= SizeInBytes n).
  { rewrite SizeInBytes_bitmap_bytes by lia. apply Z.div_pos; lia. }
  unfold CopyProjectedRowLayout.
  rewrite (Bitmap_header_bytes _ m other Hother). fold n header_size.
  replace (other + header_size - other) with header_size by lia.
  unfold TERRIER_MEMCPY.
  replace ((0 <? header_size) && (other <? head + header_size)
           && (head <? other + header_size)) with false
    by (unfold written in Hsize; symmetry; lia).
  cbn [obind].
  set (m1 := store_bytes m head (load_bytes m other (Z.to_nat header_size))).
  assert (Hcopy : forall k, 0 <= k < header_size ->
                            m1 (head + k) = m (other + k)).
  { intros k Hk. unfold m1.
    replace k with (Z.of_nat (Z.to_nat k)) by lia.
    rewrite store_bytes_inside by (rewrite load_bytes_length; lia).
    apply load_bytes_nth. lia. }
  assert (Hm1 : agree_outside head (head + header_size) m m1).
  { pose proof (store_bytes_outside m head
                  (load_bytes m other (Z.to_nat header_size))) as H.
    rewrite load_bytes_length, Z2Nat.id in H by lia. exact H. }
  assert (Hnum1 : NumColumns m1 head = n).
  { unfold n, NumColumns, load_u16. apply load_uint_shift.
    intros k Hk. simpl in Hk.
    rewrite <- !Z.add_assoc. apply Hcopy. lia. }
  rewrite (Bitmap_header_bytes _ m1 head Hhead), Hnum1. fold header_size.
  set (m2 := Clear m1 (head + header_size) n).
  pose proof (Clear_outside m1 (head + header_size) n) as Hm2.
  fold m2 in Hm2. rewrite Z2Nat.id in Hm2 by assumption.
  assert (Hnum2 : NumColumns m2 head = n).
  { rewrite <- Hnum1. unfold NumColumns, load_u16.
    apply (load_uint_outside 2 _ _ m1 m2 _ Hm2). simpl. lia. }
  assert (HB2 : Bitmap sizeof_ProjectedRow m2 head = head + header_size).
  { rewrite (Bitmap_header_bytes _ m2 head Hhead), Hnum2. reflexivity. }
  exists m2. split; [reflexivity |].
  split; [| split; [exact HB2 | split]].
  - intros k Hk. rewrite Hm2 by lia. now apply Hcopy.
  - intros i Hi. rewrite HB2. unfold m2. apply Test_Clear; lia.
  - intros x Hx. unfold written in Hx.
    rewrite Hm2 by lia. apply Hm1. lia.
Qed.

End CopyLayoutSpec.

(** ** The concurrent bitmap, used sequentially *)

Lemma land_bit_mask x pos :
  (Z.land x (bit_mask pos) =? 0) = negb (Z.testbit x (pos mod 8)).
Proof.
  unfold bit_mask.
  pose proof (Z.mod_pos_bound pos 8 ltac:(lia)) as Hk.
  rewrite Z.shiftl_1_l.
  destruct (Z.testbit x (pos mod 8)) eqn:Hbit; simpl.
  - apply Z.eqb_neq. intros H0.
    assert (Hb : Z.testbit (Z.land x (2 ^ (pos mod 8))) (pos mod 8) = true).
    { rewrite Z.land_spec, Hbit, Z.pow2_bits_true by lia. reflexivity. }
    rewrite H0, Z.bits_0 in Hb. discriminate.
  - apply Z.eqb_eq. apply Z.bits_inj'. intros i Hi.
    rewrite Z.land_spec, Z.bits_0.
    destruct (Z.eq_dec i (pos mod 8)) as [-> | Hne].
    + now rewrite Hbit.
    + rewrite (Z.pow2_bits_false (pos mod 8) i) by lia.
      apply andb_false_r.
Qed.

Lemma Test_testbit m bitmap pos :
  Test m bitmap pos = Z.testbit (load_u8 m (bitmap + pos / 8)) (pos mod 8).
Proof. unfold Test. rewrite land_bit_mask. apply negb_involutive. Qed.

Lemma Flip_outside m bitmap pos e :
  agree_outside (bitmap + pos / 8) (bitmap + pos / 8 + 1) m
    (snd (Flip m bitmap pos e)).
Proof.
  unfold Flip. destruct (Bool.eqb _ e); simpl.
  - apply (store_uint_outside 1).
  - apply agree_outside_refl.
Qed.

(** [Flip] succeeds exactly when the bit is at [expected_val], and then
    leaves it at the opposite value. *)
Lemma Flip_fst m bitmap pos e :
  fst (Flip m bitmap pos e) = Bool.eqb (Test m bitmap pos) e.
Proof. unfold Flip, Test. now destruct (Bool.eqb _ e). Qed.

Lemma Flip_unchanged m bitmap pos e :
  Test m bitmap pos <> e -> Flip m bitmap pos e = (false, m).
Proof.
  intros Hne. unfold Flip. fold (Test m bitmap pos).
  now rewrite (proj2 (eqb_false_iff _ _) Hne).
Qed.

Lemma Test_Flip m bitmap pos e :
  Test m bitmap pos = e -> Test (snd (Flip m bitmap pos e)) bitmap pos = negb e.
Proof.
  intros He. unfold Flip. fold (Test m bitmap pos).
  rewrite He, eqb_reflx. cbn [snd].
  rewrite Test_testbit. unfold load_u8, store_u8.
  rewrite load_store_uint. fold (load_u8 m (bitmap + pos / 8)).
  pose proof (Z.mod_pos_bound pos 8 ltac:(lia)) as Hk.
  rewrite Z.mod_pow2_bits_low by (simpl; lia).
  rewrite Z.lxor_spec. unfold bit_mask.
  rewrite Z.shiftl_1_l, Z.pow2_bits_true by lia.
  rewrite <- Test_testbit, He. now destruct e.
Qed.

(** ** Tuple access *)

Lemma GetOffset_range slot : 0 <= GetOffset slot < 2 ^ 20.
Proof.
  unfold GetOffset. change (BLOCK_SIZE - 1) with (Z.ones 20).
  rewrite Z.land_ones by lia.
  pose proof (Z.mod_pos_bound (bytes_ slot) (2 ^ 20) ltac:(lia)).
  rewrite wrap32_small; lia.
Qed.

Lemma Test_outside lo hi m m' bitmap pos :
  agree_outside lo hi m m' ->
  bitmap + pos / 8 + 1 <= lo \/ hi <= bitmap + pos / 8 ->
  Test m' bitmap pos = Test m bitmap pos.
Proof.
  intros Hag Hr. unfold Test, load_u8.
  now rewrite (load_uint_outside 1 lo hi m m' _ Hag) by (simpl; lia).
Qed.

Section TupleAccess.

Variable tas : TupleAccessStrategy.
Variable slot : TupleSlot.
Variable col : nat.

Hypothesis Hlayout : valid_layout (layout_ tas) = true.
Hypothesis Hcol : (Z.of_nat col <? NumCols (layout_ tas)) = true.

Let block := GetBlock slot.
Let offset := GetOffset slot.
Let s := attr_size_of (layout_ tas) col.

Lemma col_in_layout : (col < length (attr_sizes_ (layout_ tas)))%nat.
Proof. unfold NumCols in Hcol. lia. Qed.

Lemma attr_address_Done m :
  attr_address tas m slot col = Done (slot_attr_address tas slot col m).
Proof.
  pose proof (attr_range _ Hlayout col col_in_layout) as Hs. fold s in Hs.
  pose proof (GetOffset_range slot) as Hoff. fold offset in Hoff.
  unfold attr_address, ColumnStart, MiniBlock.ColumnStart.
  rewrite (AttrSize_in_layout _ col col_in_layout). cbn [obind].
  unfold slot_attr_address. fold s block offset.
  rewrite wrap32_small by nia. reflexivity.
Qed.

Lemma slot_attr_address_pos m : 0 < block -> 0 < slot_attr_address tas slot col m.
Proof.
  intros Hblock.
  pose proof (attr_range _ Hlayout col col_in_layout) as Hs. fold s in Hs.
  pose proof (GetOffset_range slot) as Hoff. fold offset in Hoff.
  pose proof (NumSlots_range _ Hlayout) as Hslots.
  unfold slot_attr_address. fold s block offset.
  pose proof (AlignedPtr_bounds s
                (Block.Column m block col + SizeInBytes (NumSlots (layout_ tas)))
                ltac:(lia)) as Ha.
  assert (0 <= SizeInBytes (NumSlots (layout_ tas))).
  { rewrite SizeInBytes_bitmap_bytes by lia. apply Z.div_pos; lia. }
  assert (block <= Block.Column m block col).
  { unfold Block.Column.
    pose proof (load_uint_range 4 m (Block.AttrOffets block + 4 * Z.of_nat col)).
    unfold load_u32. lia. }
  nia.
Qed.

Lemma AccessWithNullCheck_result m :
  AccessWithNullCheck tas m slot col
  = Done (if Test m (ColumnNullBitmap m block col) offset
          then slot_attr_address tas slot col m else nullptr).
Proof.
  unfold AccessWithNullCheck. fold block offset.
  destruct (Test m (ColumnNullBitmap m block col) offset); cbn [negb].
  - apply attr_address_Done.
  - reflexivity.
Qed.

(** Writes behind the block header, or to [num_records_], leave the
    attribute offsets of the header as they are. *)
Lemma Column_outside lo hi m m' :
  agree_outside lo hi m m' ->
  block + block_header_size (layout_ tas) <= lo \/ hi <= block + 12 ->
  Block.Column m' block col = Block.Column m block col.
Proof.
  intros Hag Hr. pose proof col_in_layout as Hc.
  unfold Block.Column, load_u32. f_equal.
  apply (load_uint_outside 4 lo hi m m' _ Hag).
  unfold block_header_size, Block.AttrSizes, Block.NumAttrs, Block.AttrOffets,
    Block.NumSlots, content_addr, NumCols in *.
  simpl. lia.
Qed.

Lemma num_records_outside lo hi m m' :
  agree_outside lo hi m m' ->
  block + block_header_size (layout_ tas) <= lo ->
  num_records_ m' block = num_records_ m block.
Proof.
  intros Hag Hr. unfold num_records_, load_u32.
  apply (load_uint_outside 4 lo hi m m' _ Hag).
  unfold block_header_size, Block.AttrSizes, Block.NumAttrs, Block.AttrOffets,
    Block.NumSlots, content_addr, num_records_addr, NumCols in *.
  simpl. lia.
Qed.

(** Where the presence bit of the slot is kept. *)
Lemma bit_address_bounds m :
  column_in_content tas m block col = true ->
  block + block_header_size (layout_ tas)
  <= ColumnNullBitmap m block col + offset / 8.
Proof.
  intros Hin. unfold column_in_content in Hin.
  pose proof (GetOffset_range slot) as Hoff. fold offset in Hoff.
  assert (0 <= offset / 8) by (apply Z.div_pos; lia).
  unfold ColumnNullBitmap, MiniBlock.PresenceBitmap. lia.
Qed.

Lemma AccessForceNotNull_result m :
  column_in_content tas m block col = true ->
  exists m',
    AccessForceNotNull tas m slot col = Done (slot_attr_address tas slot col m, m') /\
    m' = (if Test m (ColumnNullBitmap m block col) offset then m
          else snd (Flip m (ColumnNullBitmap m block col) offset false)) /\
    Block.Column m' block col = Block.Column m block col /\
    Test m' (ColumnNullBitmap m' block col) offset = true /\
    num_records_ m' block = num_records_ m block.
Proof.
  intros Hin. pose proof (bit_address_bounds m Hin) as Hbit.
  unfold AccessForceNotNull. fold block offset.
  set (bitmap := ColumnNullBitmap m block col) in *.
  destruct (Test m bitmap offset) eqn:Htest; cbn [negb].
  - exists m. rewrite attr_address_Done. cbn [obind].
    repeat split; try reflexivity. exact Htest.
  - set (m' := snd (Flip m bitmap offset false)).
    pose proof (Flip_outside m bitmap offset false) as Hag. fold m' in Hag.
    assert (Hcolumn : Block.Column m' block col = Block.Column m block col)
      by (apply (Column_outside _ _ m m' Hag); lia).
    exists m'. rewrite attr_address_Done. cbn [obind].
    unfold slot_attr_address. fold block. rewrite Hcolumn.
    repeat split; try reflexivity.
    + unfold ColumnNullBitmap. rewrite Hcolumn.
      apply (Test_Flip m bitmap offset false Htest).
    + apply (num_records_outside _ _ m m' Hag). lia.
Qed.

Lemma SetNull_result m :
  column_in_content tas m block col = true ->
  let m' := SetNull tas m slot col in
  Block.Column m' block col = Block.Column m block col /\
  Test m' (ColumnNullBitmap m' block col) offset = false /\
  num_records_ m' block
  = (if Test m (ColumnNullBitmap m block col) offset
        && bool_decide (col = PRESENCE_COLUMN_ID)
     then wrap32 (num_records_ m block - 1)
     else num_records_ m block).
Proof.
  intros Hin m'. pose proof (bit_address_bounds m Hin) as Hbit.
  subst m'. unfold SetNull. fold block offset.
  set (bitmap := ColumnNullBitmap m block col) in *.
  destruct (Test m bitmap offset) eqn:Htest.
  - (* the bit is set: it is flipped *)
    pose proof (Flip_fst m bitmap offset true) as Hfst.
    pose proof (Flip_outside m bitmap offset true) as Hag.
    pose proof (Test_Flip m bitmap offset true Htest) as Hbit'.
    destruct (Flip m bitmap offset true) as [flipped m1].
    cbn [fst snd] in *. rewrite Htest in Hfst. subst flipped.
    assert (Hcolumn : Block.Column m1 block col = Block.Column m block col)
      by (apply (Column_outside _ _ m m1 Hag); lia).
    assert (Hnum : num_records_ m1 block = num_records_ m block)
      by (apply (num_records_outside _ _ m m1 Hag); lia).
    cbn [Bool.eqb andb negb] in *.
    destruct (bool_decide (col = PRESENCE_COLUMN_ID)).
    + pose proof (store_uint_outside 4 m1 (num_records_addr block)
                    (wrap32 (num_records_ m1 block - 1))) as Hdec.
      fold (store_u32 m1 (num_records_addr block)
              (wrap32 (num_records_ m1 block - 1))) in Hdec.
      fold (num_records_decrement m1 block) in Hdec.
      unfold num_records_addr in Hdec. simpl Z.of_nat in Hdec.
      assert (Hcolumn2 : Block.Column (num_records_decrement m1 block) block col
                         = Block.Column m block col).
      { rewrite <- Hcolumn. apply (Column_outside _ _ _ _ Hdec). lia. }
      split; [exact Hcolumn2 |]. split.
      * unfold ColumnNullBitmap. rewrite Hcolumn2.
        fold (ColumnNullBitmap m block col). fold bitmap.
        rewrite (Test_outside _ _ _ _ _ _ Hdec); [exact Hbit' |].
        unfold block_header_size, Block.AttrSizes, Block.NumAttrs,
          Block.AttrOffets, Block.NumSlots, content_addr, NumCols in Hbit.
        lia.
      * unfold num_records_decrement at 1. unfold num_records_ at 1.
        unfold load_u32, store_u32. rewrite load_store_uint.
        rewrite Hnum. pose proof (wrap32_range (num_records_ m block - 1)).
        apply Z.mod_small. simpl. lia.
    + split; [exact Hcolumn |]. split; [| exact Hnum].
      unfold ColumnNullBitmap. rewrite Hcolumn. exact Hbit'.
  - (* the bit is clear: nothing happens *)
    rewrite Flip_unchanged by (rewrite Htest; discriminate).
    cbn [andb]. fold bitmap. auto.
Qed.

(** [SetNull] on a column that is already null changes nothing. *)
Lemma SetNull_null m :
  Test m (ColumnNullBitmap m block col) offset = false ->
  SetNull tas m slot col = m.
Proof.
  intros Htest. unfold SetNull. fold block offset.
  rewrite Flip_unchanged by (rewrite Htest; discriminate).
  reflexivity.
Qed.

End TupleAccess.

(** ** Offsets of the plan *)

Lemma place_length sizes sz :
  length (Reference.place sizes sz).1 = length sizes.
Proof.
  revert sz. induction sizes as [| s rest IH]; intros sz; simpl; [reflexivity |].
  specialize (IH (Reference.pad_to
                    match rest with [] => 8 | s' :: _ => s' end (sz + s))).
  destruct (Reference.place rest _) as [offs total]. simpl in *. now rewrite IH.
Qed.

(** Starting at a multiple of the first attribute size, every offset of
    the plan is a multiple of the attribute size of its column. *)
Lemma place_aligned sizes : forall sz,
  Forall (fun s => 0 < s) sizes ->
  sz mod hd 1 sizes = 0 ->
  Forall2 (fun o s => o mod s = 0) (Reference.place sizes sz).1 sizes.
Proof.
  induction sizes as [| s rest IH]; intros sz Hpos Hsz; simpl.
  - constructor.
  - inversion Hpos as [| ? ? Hs Hrest]; subst.
    set (next := match rest with [] => 8 | s' :: _ => s' end).
    assert (Hnext : 0 < next).
    { unfold next. destruct rest as [| s' rest']; [lia |]. now inversion Hrest. }
    specialize (IH (Reference.pad_to next (sz + s)) Hrest).
    destruct (Reference.place rest _) as [offs total]. simpl in *.
    constructor; [exact Hsz |]. apply IH.
    destruct rest as [| s' rest']; simpl; [apply Z.mod_1_r |].
    now apply pad_to_aligned.
Qed.

(** The offsets of the plan lie between its start and its total size. *)
Lemma place_offsets_range sizes : forall sz,
  Forall (fun s => 0 < s) sizes ->
  sz <= (Reference.place sizes sz).2 /\
  Forall (fun o => sz <= o <= (Reference.place sizes sz).2)
    (Reference.place sizes sz).1.
Proof.
  induction sizes as [| s rest IH]; intros sz Hpos; simpl.
  - split; [lia | constructor].
  - inversion Hpos as [| ? ? Hs Hrest]; subst.
    set (next := match rest with [] => 8 | s' :: _ => s' end).
    assert (Hnext : 0 < next).
    { unfold next. destruct rest as [| s' rest']; [lia |]. now inversion Hrest. }
    pose proof (pad_to_bounds next (sz + s) Hnext) as Hp.
    destruct (IH (Reference.pad_to next (sz + s)) Hrest) as [Hle Hall].
    destruct (Reference.place rest _) as [offs total]. simpl in *.
    split; [lia |]. constructor; [lia |].
    eapply Forall_impl; [exact Hall |]. simpl. intros o Ho. lia.
Qed.

(** A multiple of the attribute size at an aligned head is an aligned
    address. *)
Lemma slot_address_aligned head o s :
  valid_attr_size s = true -> o mod s = 0 -> head mod 8 = 0 ->
  s <= 8 \/ head mod 16 = 0 ->
  (head + o) mod s = 0.
Proof.
  intros Hs Ho Hhead Hcase.
  apply valid_attr_size_cases in Hs.
  assert (Hpos : 0 < s) by lia.
  apply Z.mod_divide; [lia |].
  apply Z.divide_add_r; [| apply Z.mod_divide; [lia | exact Ho]].
  apply Z.mod_divide in Hhead; [| lia].
  destruct Hcase as [Hle | H16].
  - apply Z.divide_trans with 8; [| exact Hhead].
    destruct Hs as [-> | [-> | [-> | [-> | ->]]]];
      [exists 8 | exists 4 | exists 2 | exists 1 | lia]; reflexivity.
  - apply Z.mod_divide in H16; [| lia].
    apply Z.divide_trans with 16; [| exact H16].
    destruct Hs as [-> | [-> | [-> | [-> | ->]]]];
      [exists 16 | exists 8 | exists 4 | exists 2 | exists 1]; reflexivity.
Qed.

(** ** The reuse queue of the object pool *)

Section PoolBound.

Import ObjectPool.
Context {A : Type} `{Allocator A}.

Lemma run_call_limit (pool : t A) c :
  reuse_limit_ (run_call pool c) = reuse_limit_ pool.
Proof.
  destruct c as [| obj]; simpl.
  - unfold Get. destruct (Dequeue (reuse_queue_ pool)) as [[obj q] |].
    + reflexivity.
    + now destruct (New (alloc_ pool)).
  - unfold Release. now destruct (_ >? _).
Qed.

Lemma run_call_bound (pool : t A) c :
  UnsafeSize (reuse_queue_ pool) <= reuse_limit_ pool + 1 ->
  UnsafeSize (reuse_queue_ (run_call pool c)) <= reuse_limit_ pool + 1.
Proof.
  intros Hb. destruct c as [| obj]; simpl.
  - unfold Get, Dequeue.
    destruct (reuse_queue_ pool) as [| obj q] eqn:Hq.
    + destruct (New (alloc_ pool)). simpl. exact Hb.
    + simpl. unfold UnsafeSize in *. simpl length in Hb. lia.
  - unfold Release.
    destruct (Z.gtb_spec (UnsafeSize (reuse_queue_ pool)) (reuse_limit_ pool));
      simpl; [exact Hb |].
    unfold Enqueue, UnsafeSize in *. rewrite length_app. simpl. lia.
Qed.

Lemma run_bound calls : forall (pool : t A),
  UnsafeSize (reuse_queue_ pool) <= reuse_limit_ pool + 1 ->
  UnsafeSize (reuse_queue_ (run pool calls)) <= reuse_limit_ pool + 1.
Proof.
  induction calls as [| c calls IH]; intros pool Hb; simpl; [exact Hb |].
  rewrite <- (run_call_limit pool c).
  apply IH. rewrite run_call_limit. now apply run_call_bound.
Qed.

End PoolBound.

(** The size and the offsets of the plan fit in 32 bits. *)
Lemma plan_range hdr layout col_ids :
  valid_layout layout = true ->
  valid_projection layout col_ids = true ->
  0 <= hdr <= 2 ^ 16 ->
  0 <= (Reference.plan hdr (attr_size_of layout) col_ids).2 < 2 ^ 32 /\
  Forall (fun o => 0 <= o < 2 ^ 32)
    (Reference.plan hdr (attr_size_of layout) col_ids).1.
Proof.
  intros Hlayout Hproj Hhdr.
  destruct (valid_projection_facts _ _ Hproj) as (Hne & Hnd & Hall).
  pose proof (valid_projection_length _ _ Hproj) as Hlen.
  pose proof (NumCols_bound layout Hlayout) as Hcols. unfold NumCols in Hcols.
  unfold Reference.plan. rewrite <- std_sort_sort_asc.
  assert (Hsorted : Forall (fun c => (c < length (attr_sizes_ layout))%nat)
                      (std_sort col_ids))
    by now rewrite std_sort_Permutation.
  pose proof (std_sort_length col_ids) as Hsl.
  set (n := Z.of_nat (length (std_sort col_ids))).
  assert (Hn : 1 <= n <= 65535) by (unfold n; lia).
  assert (Ha0 : 1 <= attr_size_of layout (hd 0%nat (std_sort col_ids)) <= 16).
  { destruct (std_sort col_ids) as [| c0 rest]; [simpl in Hsl; lia |].
    simpl. apply attr_range; [assumption | now inversion Hsorted]. }
  pose proof (pad_to_bounds 4 (hdr + 2 * n) ltac:(lia)) as Hp1.
  set (size1 := Reference.pad_to 4 (hdr + 2 * n)) in *.
  pose proof (pad_to_bounds 8 (size1 + 4 * n) ltac:(lia)) as Hp2.
  set (size2 := Reference.pad_to 8 (size1 + 4 * n)) in *.
  assert (Hbm : 0 <= Reference.bitmap_bytes n <= n).
  { unfold Reference.bitmap_bytes.
    pose proof (Z.div_mod (n + 7) 8 ltac:(lia)).
    pose proof (Z.mod_pos_bound (n + 7) 8 ltac:(lia)). lia. }
  pose proof (pad_to_bounds (attr_size_of layout (hd 0%nat (std_sort col_ids)))
                (size2 + Reference.bitmap_bytes n) ltac:(lia)) as Hp3.
  set (size3 := Reference.pad_to _ (size2 + Reference.bitmap_bytes n)) in *.
  pose proof (place_bounds layout Hlayout (std_sort col_ids) size3 Hsorted
                ltac:(lia)) as Hb.
  fold n in Hb.
  assert (Hpos : Forall (fun s => 0 < s)
                   (map (attr_size_of layout) (std_sort col_ids))).
  { apply Forall_forall. intros s Hs. apply list_elem_of_In, in_map_iff in Hs.
    destruct Hs as (c & <- & Hc). apply list_elem_of_In in Hc.
    rewrite Forall_forall in Hsorted.
    pose proof (attr_range layout Hlayout c (Hsorted c Hc)). lia. }
  destruct (place_offsets_range _ size3 Hpos) as [_ Hoffs].
  split; [lia |].
  eapply Forall_impl; [exact Hoffs |]. simpl. intros o Ho. lia.
Qed.

(** * The claims of the specification *)

(** ** Construction of a ProjectedRowInitializer *)

(** C1.  The first assertion of the constructor rejects an empty projection
    list, for every layout.  The second assertion, meant to reject a list
    with as many ids as the layout has columns, reads the size of the
    moved-from parameter: a list of both columns of a two-column layout
    passes it, and the constructor returns an initializer. *)
Theorem ProjectedRowInitializer_new_assertions :
  (forall hdr layout,
     ProjectedRowInitializer_new hdr layout []
     = AssertionFailure "cannot initialize an empty ProjectedRow") /\
  Z.of_nat (length [0; 1]%nat) = NumCols (mkBlockLayout [8; 4] 32) /\
  ProjectedRowInitializer_new 8 (mkBlockLayout [8; 4] 32) [0; 1]%nat
  = Done (mkInitializer 48 [0; 1]%nat [32; 40]).
Proof.
  split; [| split].
  - intros hdr layout. reflexivity.
  - reflexivity.
  - vm_compute. reflexivity.
Qed.

(** C2, as stated, fails for a 16-byte column: the slot of column 0 of the
    layout [16; 8] is at offset 32, and in a buffer whose head is the
    8-byte aligned address 8 its address 40 is not a multiple of 16. *)
Lemma projected_row_16_byte_slot_misaligned :
  let layout := mkBlockLayout [16; 8] 32 in
  let head := 8 in
  valid_layout layout = true /\
  valid_projection layout [0%nat] = true /\
  ProjectedRowInitializer_new 8 layout [0%nat]
  = Done (mkInitializer 48 [0%nat] [32]) /\
  AttrSize layout 0 = Done 16 /\
  head mod 8 = 0 /\
  (head + 32) mod 16 <> 0.
Proof.
  vm_compute. repeat split; discriminate.
Qed.

(** C2, amended.  For every layout with attribute sizes in 1, 2, 4, 8, 16
    and every valid projection list, the constructor places each value slot
    at an offset that is a multiple of the attribute size of its column; in
    a buffer whose head is 8-byte aligned the address of the slot is a
    multiple of the attribute size when that size is at most 8, and for a
    16-byte column when the head is 16-byte aligned. *)
Theorem projected_row_slots_aligned hdr layout col_ids :
  valid_layout layout = true ->
  valid_projection layout col_ids = true ->
  0 <= hdr <= 2 ^ 16 ->
  exists init,
    ProjectedRowInitializer_new hdr layout col_ids = Done init /\
    length (offsets_ init) = length (col_ids_ init) /\
    forall i c o,
      col_ids_ init !! i = Some c -> offsets_ init !! i = Some o ->
      exists s,
        AttrSize layout c = Done s /\ o mod s = 0 /\
        forall head, head mod 8 = 0 -> s <= 8 \/ head mod 16 = 0 ->
                     (head + o) mod s = 0.
Proof.
  intros Hlayout Hproj Hhdr.
  destruct (valid_projection_facts _ _ Hproj) as (Hne & Hnd & Hall).
  assert (Hsorted : Forall (fun c => (c < length (attr_sizes_ layout))%nat)
                      (std_sort col_ids))
    by now rewrite std_sort_Permutation.
  eexists. split; [apply ProjectedRowInitializer_new_plan; assumption |].
  cbn [offsets_ col_ids_].
  unfold Reference.plan. rewrite <- std_sort_sort_asc.
  set (start := Reference.pad_to _ _).
  assert (Hpos : Forall (fun s => 0 < s)
                   (map (attr_size_of layout) (std_sort col_ids))).
  { apply Forall_forall. intros s Hs. apply list_elem_of_In, in_map_iff in Hs.
    destruct Hs as (c & <- & Hc). apply list_elem_of_In in Hc.
    rewrite Forall_forall in Hsorted.
    pose proof (attr_range layout Hlayout c (Hsorted c Hc)). lia. }
  assert (Hstart : start mod hd 1 (map (attr_size_of layout) (std_sort col_ids)) = 0).
  { unfold start. destruct (std_sort col_ids) as [| c0 rest]; simpl.
    - apply Z.mod_1_r.
    - apply pad_to_aligned. inversion Hpos; assumption. }
  pose proof (place_aligned _ start Hpos Hstart) as Hal.
  split; [now rewrite place_length, List.length_map |].
  intros i c o Hc Ho.
  assert (Hs : map (attr_size_of layout) (std_sort col_ids) !! i
               = Some (attr_size_of layout c)).
  { change (map (attr_size_of layout) (std_sort col_ids))
      with (attr_size_of layout <$> std_sort col_ids).
    now rewrite list_lookup_fmap, Hc. }
  pose proof (Forall2_lookup_lr _ _ _ _ _ _ Hal Ho Hs) as Hmod.
  assert (Hin : (c < length (attr_sizes_ layout))%nat).
  { rewrite Forall_forall in Hsorted. apply Hsorted.
    apply list_elem_of_lookup. eauto. }
  exists (attr_size_of layout c).
  split; [now apply AttrSize_in_layout |]. split; [exact Hmod |].
  intros head Hhead Hcase.
  apply slot_address_aligned; try assumption.
  now apply attr_valid.
Qed.

Lemma projected_row_slots_aligned_witness :
  let layout := mkBlockLayout [8; 8; 4; 2; 1] 32 in
  valid_layout layout = true /\
  valid_projection layout [3; 1]%nat = true /\
  exists init,
    ProjectedRowInitializer_new 8 layout [3; 1]%nat = Done init /\
    length (offsets_ init) = length (col_ids_ init) /\
    forall i c o,
      col_ids_ init !! i = Some c -> offsets_ init !! i = Some o ->
      exists s,
        AttrSize layout c = Done s /\ o mod s = 0 /\
        forall head, head mod 8 = 0 -> s <= 8 \/ head mod 16 = 0 ->
                     (head + o) mod s = 0.
Proof.
  intros layout.
  split; [reflexivity |]. split; [reflexivity |].
  apply (projected_row_slots_aligned 8 layout [3; 1]%nat);
    [reflexivity | reflexivity | lia].
Defined.

(** C3.  For every valid layout and projection list, the size and the
    offsets the constructor computes are those of the reference algorithm
    of the specification: header size, 2 bytes per id padded to 4, 4 bytes
    per offset padded to 8, [ceil(n/8)] bitmap bytes padded to the first
    sorted column's attribute size, then per column its offset, its
    attribute size, and padding to the next attribute size or to 8. *)
Theorem ProjectedRowInitializer_new_reference hdr layout col_ids :
  valid_layout layout = true ->
  valid_projection layout col_ids = true ->
  0 <= hdr <= 2 ^ 16 ->
  exists init,
    ProjectedRowInitializer_new hdr layout col_ids = Done init /\
    offsets_ init = (Reference.plan hdr (attr_size_of layout) col_ids).1 /\
    size_ init = (Reference.plan hdr (attr_size_of layout) col_ids).2.
Proof.
  intros Hlayout Hproj Hhdr.
  eexists. split; [apply ProjectedRowInitializer_new_plan; assumption |].
  split; reflexivity.
Qed.

Lemma ProjectedRowInitializer_new_reference_witness :
  let layout := mkBlockLayout [8; 8; 4; 2; 1] 32 in
  valid_layout layout = true /\
  valid_projection layout [4; 2; 1]%nat = true /\
  exists init,
    ProjectedRowInitializer_new 8 layout [4; 2; 1]%nat = Done init /\
    offsets_ init = (Reference.plan 8 (attr_size_of layout) [4; 2; 1]%nat).1 /\
    size_ init = (Reference.plan 8 (attr_size_of layout) [4; 2; 1]%nat).2.
Proof.
  intros layout.
  split; [reflexivity |]. split; [reflexivity |].
  apply (ProjectedRowInitializer_new_reference 8 layout [4; 2; 1]%nat);
    [reflexivity | reflexivity | lia].
Defined.

(** ** Rows in memory *)

(** C4.  For every initializer built from a valid layout and projection
    list and every 8-byte aligned buffer, [InitializeRow] returns the buffer
    as a row whose size is the size of the initializer, whose number of
    columns is the number of requested columns, whose [i]-th column id is
    the [i]-th id of the projection list sorted ascending, whose
    attribute-value offsets are the offsets of the initializer, and whose
    bitmap is all zero: [AccessWithNullCheck(i)] is null for every column. *)
Theorem InitializeRow_fields hdr layout col_ids init m head :
  valid_layout layout = true ->
  valid_projection layout col_ids = true ->
  6 <= hdr <= 2 ^ 16 ->
  ProjectedRowInitializer_new hdr layout col_ids = Done init ->
  head mod 8 = 0 ->
  exists m',
    InitializeRow hdr init m head = Done (head, m') /\
    Size m' head = size_ init /\
    NumColumns m' head = Z.of_nat (length col_ids) /\
    Sorted Nat.le (col_ids_ init) /\ col_ids_ init ≡ₚ col_ids /\
    (forall i c, col_ids_ init !! i = Some c ->
       ColumnId hdr m' head i = Z.of_nat c) /\
    (forall i o, offsets_ init !! i = Some o ->
       AttrValueOffset hdr m' head i = o) /\
    (forall i, (i < length col_ids)%nat ->
       Test m' (Bitmap hdr m' head) (Z.of_nat i) = false /\
       Row_AccessWithNullCheck hdr m' head i = nullptr).
Proof.
  intros Hlayout Hproj Hhdr Hnew Hhead.
  rewrite ProjectedRowInitializer_new_plan in Hnew by (try assumption; lia).
  injection Hnew as <-.
  destruct (plan_range hdr layout col_ids Hlayout Hproj ltac:(lia))
    as [Hsize Hoffs].
  destruct (valid_projection_facts _ _ Hproj) as (Hne & Hnd & Hall).
  pose proof (valid_projection_length _ _ Hproj) as Hlen.
  pose proof (NumCols_bound layout Hlayout) as Hcols. unfold NumCols in Hcols.
  set (init := mkInitializer _ _ _).
  assert (Hlo : length (offsets_ init) = length (col_ids_ init)).
  { cbn [init offsets_ col_ids_]. unfold Reference.plan.
    now rewrite place_length, List.length_map, std_sort_sort_asc. }
  destruct (InitializeRow_spec hdr ltac:(lia) init
              ltac:(cbn [init col_ids_]; rewrite std_sort_length; lia)
              Hlo m head Hhead)
    as (m' & Hrun & Hsz & Hnum & Hids & Hoff & Hbits & _).
  cbn [init size_ col_ids_ offsets_] in *.
  rewrite std_sort_length in *.
  exists m'. split; [exact Hrun |].
  split; [rewrite Hsz; apply Z.mod_small; lia |].
  split; [exact Hnum |].
  split; [apply std_sort_Sorted |]. split; [apply std_sort_Permutation |].
  split; [| split].
  - intros i c Hc. rewrite (Hids i c Hc). apply Z.mod_small.
    assert (c ∈ col_ids)
      by (rewrite <- (std_sort_Permutation col_ids);
          apply list_elem_of_lookup; eauto).
    rewrite Forall_forall in Hall. specialize (Hall c ltac:(assumption)). lia.
  - intros i o Ho. rewrite (Hoff i o Ho). apply Z.mod_small.
    rewrite Forall_forall in Hoffs. apply Hoffs.
    apply list_elem_of_lookup. eauto.
  - intros i Hi. split; [now apply Hbits |].
    unfold Row_AccessWithNullCheck. now rewrite Hbits.
Qed.

Lemma InitializeRow_fields_witness :
  let layout := mkBlockLayout [8; 8; 4; 2; 1] 32 in
  let init := mkInitializer 48 [1; 3]%nat [32; 40] in
  let m : mem := fun _ => Byte.xff in
  valid_layout layout = true /\
  valid_projection layout [3; 1]%nat = true /\
  ProjectedRowInitializer_new 8 layout [3; 1]%nat = Done init /\
  64 mod 8 = 0 /\
  exists m',
    InitializeRow 8 init m 64 = Done (64, m') /\
    Size m' 64 = size_ init /\
    NumColumns m' 64 = Z.of_nat (length [3; 1]%nat) /\
    Sorted Nat.le (col_ids_ init) /\ col_ids_ init ≡ₚ [3; 1]%nat /\
    (forall i c, col_ids_ init !! i = Some c ->
       ColumnId 8 m' 64 i = Z.of_nat c) /\
    (forall i o, offsets_ init !! i = Some o ->
       AttrValueOffset 8 m' 64 i = o) /\
    (forall i, (i < length [3; 1]%nat)%nat ->
       Test m' (Bitmap 8 m' 64) (Z.of_nat i) = false /\
       Row_AccessWithNullCheck 8 m' 64 i = nullptr).
Proof.
  intros layout init m.
  split; [reflexivity |]. split; [reflexivity |].
  split; [vm_compute; reflexivity |]. split; [reflexivity |].
  apply (InitializeRow_fields 8 layout [3; 1]%nat init m 64);
    [reflexivity | reflexivity | lia | vm_compute; reflexivity | reflexivity].
Defined.

(** C8.  For every source row and every 8-byte aligned destination buffer
    that does not overlap it, [CopyProjectedRowLayout] copies the header of
    the source, that is its size, its number of columns, its column ids and
    its attribute-value offsets, into the destination, leaves the bitmap of
    the destination all zero, and does not modify the source row. *)
Theorem CopyProjectedRowLayout_header hdr m head other :
  6 <= hdr ->
  head mod 8 = 0 ->
  other mod 8 = 0 ->
  Bitmap hdr m other + SizeInBytes (NumColumns m other) <= other + Size m other ->
  head + Size m other <= other \/ other + Size m other <= head ->
  exists m',
    CopyProjectedRowLayout hdr m head other = Done (head, m') /\
    (forall k, 0 <= k < Bitmap hdr m other - other ->
       m' (head + k) = m (other + k)) /\
    Size m' head = Size m other /\
    NumColumns m' head = NumColumns m other /\
    (forall i, Z.of_nat i < NumColumns m other ->
       ColumnId hdr m' head i = ColumnId hdr m other i /\
       AttrValueOffset hdr m' head i = AttrValueOffset hdr m other i /\
       Test m' (Bitmap hdr m' head) (Z.of_nat i) = false /\
       Row_AccessWithNullCheck hdr m' head i = nullptr) /\
    (forall x, other <= x < other + Size m other -> m' x = m x).
Proof.
  intros Hhdr Hhead Hother Hsize Hdisj.
  rewrite (Bitmap_header_bytes hdr m other Hother) in *.
  set (n := NumColumns m other) in *.
  set (header_size := header_bytes hdr n) in *.
  assert (Hn : 0 <= n < 2 ^ 16).
  { unfold n, NumColumns, load_u16.
    pose proof (load_uint_range 2 m (other + 4)) as H. simpl in H. lia. }
  destruct (header_bytes_bounds hdr n ltac:(lia)) as [Hb1 Hb2].
  fold header_size in Hb2.
  destruct (CopyProjectedRowLayout_spec hdr Hhdr m head other Hhead Hother
              ltac:(fold n header_size; lia) Hdisj)
    as (m' & Hrun & Hcopy & HB & Hbits & Hout).
  fold n header_size in Hcopy, HB, Hbits, Hout.
  replace (other + header_size - other) with header_size by lia.
  assert (Hload : forall w k, 0 <= k -> k + Z.of_nat w <= header_size ->
                   load_uint w m' (head + k) = load_uint w m (other + k)).
  { intros w k Hk Hkw. apply load_uint_shift. intros j Hj.
    rewrite <- !Z.add_assoc. apply Hcopy. lia. }
  assert (Hnum : NumColumns m' head = n)
    by (apply (Hload 2%nat 4); simpl; lia).
  assert (HA : forall row, row mod 8 = 0 ->
            forall mm, NumColumns mm row = n ->
            AttrValueOffsets hdr mm row = row + AlignedPtr 4 (hdr + 2 * n)).
  { intros row Hrow mm Hmm. unfold AttrValueOffsets, ColumnIds. rewrite Hmm.
    rewrite <- Z.add_assoc.
    apply AlignedPtr_shift; [lia | now apply mod_8_mod_4]. }
  exists m'. split; [exact Hrun |]. split; [exact Hcopy |].
  split; [| split; [exact Hnum | split]].
  - unfold Size, load_u32.
    rewrite <- (Z.add_0_r head), <- (Z.add_0_r other).
    apply Hload; simpl; lia.
  - intros i Hi. split; [| split; [| split]].
    + unfold ColumnId, ColumnIds, load_u16. rewrite <- !Z.add_assoc.
      apply Hload; simpl; lia.
    + unfold AttrValueOffset, load_u32.
      rewrite (HA head Hhead m' Hnum), (HA other Hother m eq_refl).
      rewrite <- !Z.add_assoc. apply Hload; simpl; lia.
    + apply Hbits. lia.
    + unfold Row_AccessWithNullCheck. rewrite Hbits by lia. reflexivity.
  - intros x Hx. apply Hout. lia.
Qed.

Lemma CopyProjectedRowLayout_header_witness :
  let m := example_row_mem in
  6 <= 8 /\ 128 mod 8 = 0 /\ 64 mod 8 = 0 /\
  Bitmap 8 m 64 + SizeInBytes (NumColumns m 64) <= 64 + Size m 64 /\
  (128 + Size m 64 <= 64 \/ 64 + Size m 64 <= 128) /\
  exists m',
    CopyProjectedRowLayout 8 m 128 64 = Done (128, m') /\
    (forall k, 0 <= k < Bitmap 8 m 64 - 64 -> m' (128 + k) = m (64 + k)) /\
    Size m' 128 = Size m 64 /\
    NumColumns m' 128 = NumColumns m 64 /\
    (forall i, Z.of_nat i < NumColumns m 64 ->
       ColumnId 8 m' 128 i = ColumnId 8 m 64 i /\
       AttrValueOffset 8 m' 128 i = AttrValueOffset 8 m 64 i /\
       Test m' (Bitmap 8 m' 128) (Z.of_nat i) = false /\
       Row_AccessWithNullCheck 8 m' 128 i = nullptr) /\
    (forall x, 64 <= x < 64 + Size m 64 -> m' x = m x).
Proof.
  intros m.
  assert (H1 : Bitmap 8 m 64 + SizeInBytes (NumColumns m 64) <= 64 + Size m 64)
    by (vm_compute; discriminate).
  assert (H2 : 128 + Size m 64 <= 64 \/ 64 + Size m 64 <= 128)
    by (right; vm_compute; discriminate).
  split; [lia |]. split; [reflexivity |]. split; [reflexivity |].
  split; [exact H1 |]. split; [exact H2 |].
  apply (CopyProjectedRowLayout_header 8 m 128 64);
    [lia | reflexivity | reflexivity | exact H1 | exact H2].
Defined.

(** ** Tuple access *)

(** C5.  For every tuple slot of a block and every column of the layout,
    [AccessWithNullCheck] returns null exactly when the presence bit of the
    column for that slot is 0, and otherwise the address of the attribute:
    the start of the column plus the attribute size times the offset of the
    slot. *)
Theorem AccessWithNullCheck_null_iff tas m slot col :
  valid_layout (layout_ tas) = true ->
  (Z.of_nat col <? NumCols (layout_ tas)) = true ->
  0 < GetBlock slot ->
  exists start s p,
    ColumnStart tas m (GetBlock slot) col = Done start /\
    AttrSize (layout_ tas) col = Done s /\
    AccessWithNullCheck tas m slot col = Done p /\
    (p = nullptr <->
     Test m (ColumnNullBitmap m (GetBlock slot) col) (GetOffset slot) = false) /\
    (Test m (ColumnNullBitmap m (GetBlock slot) col) (GetOffset slot) = true ->
     p = start + s * GetOffset slot).
Proof.
  intros Hlayout Hcol Hblock.
  pose proof (AccessWithNullCheck_result tas slot col Hlayout Hcol m) as Hacc.
  pose proof (slot_attr_address_pos tas slot col Hlayout Hcol m Hblock) as Hpos.
  assert (Hc : (col < length (attr_sizes_ (layout_ tas)))%nat)
    by (unfold NumCols in Hcol; lia).
  eexists _, _, _.
  split; [| split; [| split; [exact Hacc | split]]].
  - unfold ColumnStart, MiniBlock.ColumnStart.
    rewrite (AttrSize_in_layout _ col Hc). reflexivity.
  - apply (AttrSize_in_layout _ col Hc).
  - destruct (Test m _ _); split; intros H; try reflexivity; try discriminate.
    unfold nullptr in H. lia.
  - intros Htest. rewrite Htest. reflexivity.
Qed.

(** C6.  For every tuple slot and column, after [AccessForceNotNull] the
    presence bit is 1 and [AccessWithNullCheck] returns the pointer that
    [AccessForceNotNull] returned; a second [AccessForceNotNull] leaves the
    memory, and so the bitmap, as it is and returns the same pointer; after
    [SetNull] the presence bit is 0 and [AccessWithNullCheck] returns
    null. *)
Theorem force_not_null_set_null_round_trip tas m slot col :
  valid_layout (layout_ tas) = true ->
  (Z.of_nat col <? NumCols (layout_ tas)) = true ->
  0 < GetBlock slot ->
  column_in_content tas m (GetBlock slot) col = true ->
  let bit m := Test m (ColumnNullBitmap m (GetBlock slot) col) (GetOffset slot) in
  (exists p m1,
     AccessForceNotNull tas m slot col = Done (p, m1) /\
     p <> nullptr /\
     bit m1 = true /\
     AccessWithNullCheck tas m1 slot col = Done p /\
     AccessForceNotNull tas m1 slot col = Done (p, m1) /\
     bit (SetNull tas m1 slot col) = false /\
     AccessWithNullCheck tas (SetNull tas m1 slot col) slot col = Done nullptr) /\
  bit (SetNull tas m slot col) = false /\
  AccessWithNullCheck tas (SetNull tas m slot col) slot col = Done nullptr.
Proof.
  intros Hlayout Hcol Hblock Hin bit.
  assert (Hnull : forall m0,
            column_in_content tas m0 (GetBlock slot) col = true ->
            bit (SetNull tas m0 slot col) = false /\
            AccessWithNullCheck tas (SetNull tas m0 slot col) slot col
            = Done nullptr).
  { intros m0 Hin0.
    destruct (SetNull_result tas slot col Hcol m0 Hin0) as (_ & Hbit & _).
    split; [exact Hbit |].
    rewrite (AccessWithNullCheck_result tas slot col Hlayout Hcol).
    fold (bit (SetNull tas m0 slot col)) in Hbit |- *. now rewrite Hbit. }
  split; [| now apply Hnull].
  destruct (AccessForceNotNull_result tas slot col Hlayout Hcol m Hin)
    as (m1 & Hrun & _ & Hcolumn & Hbit & _).
  assert (Hin1 : column_in_content tas m1 (GetBlock slot) col = true)
    by (unfold column_in_content in *; now rewrite Hcolumn).
  assert (Haddr : slot_attr_address tas slot col m1
                  = slot_attr_address tas slot col m)
    by (unfold slot_attr_address; now rewrite Hcolumn).
  pose proof (slot_attr_address_pos tas slot col Hlayout Hcol m Hblock) as Hpos.
  exists (slot_attr_address tas slot col m), m1.
  split; [exact Hrun |]. split; [unfold nullptr; lia |].
  split; [exact Hbit |]. split; [| split].
  - rewrite (AccessWithNullCheck_result tas slot col Hlayout Hcol).
    fold (bit m1) in Hbit |- *. now rewrite Hbit, Haddr.
  - destruct (AccessForceNotNull_result tas slot col Hlayout Hcol m1 Hin1)
      as (m2 & Hrun2 & Hm2 & _).
    fold (bit m1) in Hbit, Hm2. rewrite Hbit in Hm2. subst m2.
    now rewrite Hrun2, Haddr.
  - now apply Hnull.
Qed.

(** C7.  For every tuple slot, [SetNull] clears the presence bit of the
    column.  On the presence column, when the slot was live, this frees the
    slot and decrements [num_records_] by exactly one; on any other column
    [num_records_] does not change. *)
Theorem SetNull_num_records tas m slot col :
  (Z.of_nat col <? NumCols (layout_ tas)) = true ->
  column_in_content tas m (GetBlock slot) col = true ->
  let bit m := Test m (ColumnNullBitmap m (GetBlock slot) col) (GetOffset slot) in
  let m' := SetNull tas m slot col in
  bit m' = false /\
  (col = PRESENCE_COLUMN_ID -> bit m = true ->
   num_records_ m' (GetBlock slot) = wrap32 (num_records_ m (GetBlock slot) - 1) /\
   (0 < num_records_ m (GetBlock slot) ->
    num_records_ m' (GetBlock slot) = num_records_ m (GetBlock slot) - 1)) /\
  (col <> PRESENCE_COLUMN_ID ->
   num_records_ m' (GetBlock slot) = num_records_ m (GetBlock slot)).
Proof.
  intros Hcol Hin bit m'.
  destruct (SetNull_result tas slot col Hcol m Hin) as (_ & Hbit & Hnum).
  fold m' in Hbit, Hnum. fold (bit m) in Hnum.
  split; [exact Hbit |]. split.
  - intros Hpresence Hlive.
    rewrite Hlive, (bool_decide_eq_true_2 _ Hpresence) in Hnum. cbn [andb] in Hnum.
    split; [exact Hnum |].
    intros Hpos. rewrite Hnum. apply wrap32_small.
    pose proof (load_uint_range 4 m (num_records_addr (GetBlock slot))) as Hr.
    unfold num_records_, load_u32 in *. simpl in Hr. lia.
  - intros Hother.
    rewrite (bool_decide_eq_false_2 _ Hother), andb_false_r in Hnum. exact Hnum.
Qed.

(** C10.  For every tuple slot whose presence-column bit is already 0,
    [SetNull] on the presence column changes nothing, [num_records_]
    included; so a second [SetNull] on the presence column, whatever the
    first one did, leaves the memory as the first one left it, and
    [num_records_] is decremented at most once. *)
Theorem SetNull_presence_idempotent tas m slot :
  (0 <? NumCols (layout_ tas)) = true ->
  column_in_content tas m (GetBlock slot) PRESENCE_COLUMN_ID = true ->
  let bit m :=
    Test m (ColumnNullBitmap m (GetBlock slot) PRESENCE_COLUMN_ID)
      (GetOffset slot) in
  let m1 := SetNull tas m slot PRESENCE_COLUMN_ID in
  let m2 := SetNull tas m1 slot PRESENCE_COLUMN_ID in
  (bit m = false ->
   m1 = m /\ num_records_ m1 (GetBlock slot) = num_records_ m (GetBlock slot)) /\
  m2 = m1 /\
  num_records_ m2 (GetBlock slot)
  = (if bit m then wrap32 (num_records_ m (GetBlock slot) - 1)
     else num_records_ m (GetBlock slot)).
Proof.
  intros Hcol Hin bit m1 m2.
  destruct (SetNull_result tas slot PRESENCE_COLUMN_ID Hcol m Hin)
    as (_ & Hbit & Hnum).
  fold m1 in Hbit, Hnum. fold (bit m) in Hnum. fold (bit m1) in Hbit.
  assert (H21 : m2 = m1) by (unfold m2; now apply SetNull_null).
  split; [| split].
  - intros Hdead.
    assert (H1 : m1 = m) by (unfold m1; now apply SetNull_null).
    now rewrite H1.
  - exact H21.
  - rewrite H21, Hnum. now rewrite andb_true_r.
Qed.

Lemma AccessWithNullCheck_null_iff_witness :
  let tas := example_tas in
  let m := example_live_block in
  let slot := example_slot in
  valid_layout (layout_ tas) = true /\
  (Z.of_nat 0 <? NumCols (layout_ tas)) = true /\
  0 < GetBlock slot /\
  exists start s p,
    ColumnStart tas m (GetBlock slot) 0 = Done start /\
    AttrSize (layout_ tas) 0 = Done s /\
    AccessWithNullCheck tas m slot 0 = Done p /\
    (p = nullptr <->
     Test m (ColumnNullBitmap m (GetBlock slot) 0) (GetOffset slot) = false) /\
    (Test m (ColumnNullBitmap m (GetBlock slot) 0) (GetOffset slot) = true ->
     p = start + s * GetOffset slot).
Proof.
  intros tas m slot.
  split; [reflexivity |]. split; [reflexivity |]. split; [reflexivity |].
  apply (AccessWithNullCheck_null_iff tas m slot 0);
    [reflexivity | reflexivity | reflexivity].
Defined.

Lemma force_not_null_set_null_round_trip_witness :
  let tas := example_tas in
  let m := example_free_block in
  let slot := example_slot in
  let col := 1%nat in
  valid_layout (layout_ tas) = true /\
  (Z.of_nat col <? NumCols (layout_ tas)) = true /\
  0 < GetBlock slot /\
  column_in_content tas m (GetBlock slot) col = true /\
  let bit m := Test m (ColumnNullBitmap m (GetBlock slot) col) (GetOffset slot) in
  (exists p m1,
     AccessForceNotNull tas m slot col = Done (p, m1) /\
     p <> nullptr /\
     bit m1 = true /\
     AccessWithNullCheck tas m1 slot col = Done p /\
     AccessForceNotNull tas m1 slot col = Done (p, m1) /\
     bit (SetNull tas m1 slot col) = false /\
     AccessWithNullCheck tas (SetNull tas m1 slot col) slot col = Done nullptr) /\
  bit (SetNull tas m slot col) = false /\
  AccessWithNullCheck tas (SetNull tas m slot col) slot col = Done nullptr.
Proof.
  intros tas m slot col.
  split; [reflexivity |]. split; [reflexivity |]. split; [reflexivity |].
  split; [vm_compute; reflexivity |].
  apply (force_not_null_set_null_round_trip tas m slot col);
    [reflexivity | reflexivity | reflexivity | vm_compute; reflexivity].
Defined.

Lemma SetNull_num_records_witness :
  let tas := example_tas in
  let m := example_live_block in
  let slot := example_slot in
  let col := PRESENCE_COLUMN_ID in
  (Z.of_nat col <? NumCols (layout_ tas)) = true /\
  column_in_content tas m (GetBlock slot) col = true /\
  let bit m := Test m (ColumnNullBitmap m (GetBlock slot) col) (GetOffset slot) in
  let m' := SetNull tas m slot col in
  bit m = true /\ num_records_ m (GetBlock slot) = 1 /\
  bit m' = false /\
  (col = PRESENCE_COLUMN_ID -> bit m = true ->
   num_records_ m' (GetBlock slot) = wrap32 (num_records_ m (GetBlock slot) - 1) /\
   (0 < num_records_ m (GetBlock slot) ->
    num_records_ m' (GetBlock slot) = num_records_ m (GetBlock slot) - 1)) /\
  (col <> PRESENCE_COLUMN_ID ->
   num_records_ m' (GetBlock slot) = num_records_ m (GetBlock slot)).
Proof.
  intros tas m slot col.
  split; [reflexivity |]. split; [vm_compute; reflexivity |].
  intros bit m'.
  split; [vm_compute; reflexivity |]. split; [vm_compute; reflexivity |].
  apply (SetNull_num_records tas m slot col);
    [reflexivity | vm_compute; reflexivity].
Defined.

Lemma SetNull_presence_idempotent_witness :
  let tas := example_tas in
  let m := example_free_block in
  let slot := example_slot in
  (0 <? NumCols (layout_ tas)) = true /\
  column_in_content tas m (GetBlock slot) PRESENCE_COLUMN_ID = true /\
  let bit m :=
    Test m (ColumnNullBitmap m (GetBlock slot) PRESENCE_COLUMN_ID)
      (GetOffset slot) in
  let m1 := SetNull tas m slot PRESENCE_COLUMN_ID in
  let m2 := SetNull tas m1 slot PRESENCE_COLUMN_ID in
  bit m = false /\
  (bit m = false ->
   m1 = m /\ num_records_ m1 (GetBlock slot) = num_records_ m (GetBlock slot)) /\
  m2 = m1 /\
  num_records_ m2 (GetBlock slot)
  = (if bit m then wrap32 (num_records_ m (GetBlock slot) - 1)
     else num_records_ m (GetBlock slot)).
Proof.
  intros tas m slot.
  split; [reflexivity |]. split; [vm_compute; reflexivity |].
  intros bit m1 m2.
  split; [vm_compute; reflexivity |].
  apply (SetNull_presence_idempotent tas m slot);
    [reflexivity | vm_compute; reflexivity].
Defined.

(** ** Object pool *)

(** C9.  For every state of an object pool, [Get] returns the object at
    the head of the reuse queue, dequeued, when there is one, and otherwise
    an object freshly allocated by the allocator; [Release] enqueues the
    object when the size of the reuse queue does not exceed the reuse limit
    and otherwise deletes it; so, whatever calls are made on a pool, its
    reuse queue never holds more than the reuse limit plus one objects. *)
Theorem ObjectPool_contract {A : Type} `{ObjectPool.Allocator A}
    (pool : ObjectPool.t A) (obj : Z) (alloc : A) (reuse_limit : Z)
    (calls : list ObjectPool.call) :
  0 <= reuse_limit ->
  ObjectPool.Get pool
  = match ObjectPool.reuse_queue_ pool with
    | recycled :: queue =>
        (recycled,
         ObjectPool.mk (ObjectPool.Reuse (ObjectPool.alloc_ pool) recycled)
           queue (ObjectPool.reuse_limit_ pool))
    | [] =>
        ((ObjectPool.New (ObjectPool.alloc_ pool)).1,
         ObjectPool.mk (ObjectPool.New (ObjectPool.alloc_ pool)).2 []
           (ObjectPool.reuse_limit_ pool))
    end /\
  ObjectPool.Release pool obj
  = (if ObjectPool.UnsafeSize (ObjectPool.reuse_queue_ pool)
        <=? ObjectPool.reuse_limit_ pool
     then ObjectPool.mk (ObjectPool.alloc_ pool)
            (ObjectPool.reuse_queue_ pool ++ [obj])
            (ObjectPool.reuse_limit_ pool)
     else ObjectPool.mk (ObjectPool.Delete (ObjectPool.alloc_ pool) obj)
            (ObjectPool.reuse_queue_ pool) (ObjectPool.reuse_limit_ pool)) /\
  ObjectPool.UnsafeSize
    (ObjectPool.reuse_queue_
       (ObjectPool.run (ObjectPool.create alloc reuse_limit) calls))
  <= reuse_limit + 1.
Proof.
  intros Hlimit. split; [| split].
  - unfold ObjectPool.Get, ObjectPool.Dequeue.
    destruct (ObjectPool.reuse_queue_ pool) as [| recycled queue] eqn:Hq.
    + now destruct (ObjectPool.New (ObjectPool.alloc_ pool)).
    + reflexivity.
  - unfold ObjectPool.Release, ObjectPool.Enqueue.
    destruct (Z.gtb_spec (ObjectPool.UnsafeSize (ObjectPool.reuse_queue_ pool))
                (ObjectPool.reuse_limit_ pool)) as [Hgt | Hle];
      destruct (Z.leb_spec (ObjectPool.UnsafeSize (ObjectPool.reuse_queue_ pool))
                  (ObjectPool.reuse_limit_ pool)); try lia; reflexivity.
  - apply (run_bound calls (ObjectPool.create alloc reuse_limit)).
    simpl. unfold ObjectPool.UnsafeSize. simpl. lia.
Qed.

Lemma ObjectPool_contract_witness :
  let pool := ObjectPool.mk (ObjectPool.mkBump 64 [48; 56]) [48; 56] 1 in
  let calls := [ObjectPool.CallRelease 8; ObjectPool.CallRelease 16;
                ObjectPool.CallRelease 24; ObjectPool.CallGet] in
  0 <= 1 /\
  ObjectPool.Get pool
  = (48, ObjectPool.mk (ObjectPool.mkBump 64 [48; 56]) [56] 1) /\
  ObjectPool.Release pool 40
  = ObjectPool.mk (ObjectPool.mkBump 64 [48; 56]) [48; 56] 1 /\
  ObjectPool.UnsafeSize
    (ObjectPool.reuse_queue_
       (ObjectPool.run (ObjectPool.create (ObjectPool.mkBump 0 []) 1) calls))
  <= 1 + 1.
Proof.
  intros pool calls.
  split; [lia |].
  exact (ObjectPool_contract pool 40 (ObjectPool.mkBump 0 []) 1 calls
           ltac:(lia)).
Defined.

(** * Further properties of the code *)

(** ** Geometry of the layout plan *)

Lemma AlignedPtr_pad_to a x : 0 < a -> AlignedPtr a x = Reference.pad_to a x.
Proof.
  intros Ha. unfold AlignedPtr, Reference.pad_to.
  pose proof (Z.div_mod x a ltac:(lia)) as Hdm.
  pose proof (Z.mod_pos_bound x a Ha) as Hr.
  destruct (Z.eqb_spec (x mod a) 0) as [H0 | H0].
  - assert (Hq : (x + a - 1) / a = x / a).
    { symmetry. apply (Z.div_unique _ _ _ (a - 1)); lia. }
    rewrite Hq. lia.
  - assert (Hq : (x + a - 1) / a = x / a + 1).
    { symmetry. apply (Z.div_unique _ _ _ (x mod a - 1)); lia. }
    rewrite Hq. lia.
Qed.

Lemma pad_to_id a x : 0 < a -> x mod a = 0 -> Reference.pad_to a x = x.
Proof.
  intros Ha Hx. rewrite <- AlignedPtr_pad_to by assumption.
  unfold AlignedPtr. now rewrite Hx.
Qed.

(** Every slot of the plan starts at or after the start of the plan, ends
    at or before the next slot, and ends within the total size. *)
Lemma place_slots sizes : forall sz i o s,
  Forall (fun s => 0 < s) sizes ->
  (Reference.place sizes sz).1 !! i = Some o ->
  sizes !! i = Some s ->
  sz <= o /\ o + s <= (Reference.place sizes sz).2 /\
  forall o', (Reference.place sizes sz).1 !! S i = Some o' -> o + s <= o'.
Proof.
  induction sizes as [| s0 rest IH]; intros sz i o s Hpos Ho Hs;
    [discriminate |].
  inversion Hpos as [| ? ? Hs0 Hrest]; subst.
  cbn [Reference.place] in *.
  set (next := match rest with [] => 8 | s' :: _ => s' end) in *.
  assert (Hnext : 0 < next).
  { unfold next. destruct rest as [| s' rest']; [lia |]. now inversion Hrest. }
  pose proof (pad_to_bounds next (sz + s0) Hnext) as Hp.
  pose proof (place_offsets_range rest (Reference.pad_to next (sz + s0)) Hrest)
    as [Hle Hall].
  specialize (IH (Reference.pad_to next (sz + s0))).
  destruct (Reference.place rest _) as [offs total]. cbn [fst snd] in *.
  destruct i as [| i]; cbn in Ho, Hs.
  - injection Ho as <-. injection Hs as <-.
    split; [lia |]. split; [lia |].
    intros o' Ho'. cbn in Ho'.
    rewrite Forall_forall in Hall.
    assert (o' ∈ offs) by (apply list_elem_of_lookup; eauto).
    specialize (Hall o' ltac:(assumption)). lia.
  - destruct (IH i o s Hrest Ho Hs) as (H1 & H2 & H3).
    split; [lia |]. split; [exact H2 |]. exact H3.
Qed.

(** The total size of a plan with at least one column is a multiple of 8. *)
Lemma place_total_aligned sizes : forall sz,
  sizes <> [] -> (Reference.place sizes sz).2 mod 8 = 0.
Proof.
  induction sizes as [| s0 rest IH]; intros sz Hne; [congruence |].
  cbn [Reference.place].
  destruct rest as [| s1 rest'].
  - cbn. apply pad_to_aligned. lia.
  - specialize (IH (Reference.pad_to s1 (sz + s0)) ltac:(discriminate)).
    destruct (Reference.place (s1 :: rest') _) as [offs total]. exact IH.
Qed.

Lemma plan_geometry hdr layout col_ids :
  valid_layout layout = true ->
  valid_projection layout col_ids = true ->
  0 <= hdr <= 2 ^ 16 ->
  let n := Z.of_nat (length col_ids) in
  let p := Reference.plan hdr (attr_size_of layout) col_ids in
  length p.1 = length col_ids /\
  header_bytes hdr n + SizeInBytes n <= p.2 /\
  p.2 mod 8 = 0 /\
  forall i c o,
    std_sort col_ids !! i = Some c -> p.1 !! i = Some o ->
    header_bytes hdr n + SizeInBytes n <= o /\
    o + attr_size_of layout c <= p.2 /\
    forall o', p.1 !! S i = Some o' -> o + attr_size_of layout c <= o'.
Proof.
  intros Hlayout Hproj Hhdr n p.
  destruct (valid_projection_facts _ _ Hproj) as (Hne & Hnd & Hall).
  pose proof (valid_projection_length _ _ Hproj) as Hlen.
  pose proof (NumCols_bound layout Hlayout) as Hcols. unfold NumCols in Hcols.
  assert (Hsorted : Forall (fun c => (c < length (attr_sizes_ layout))%nat)
                      (std_sort col_ids))
    by now rewrite std_sort_Permutation.
  pose proof (std_sort_length col_ids) as Hsl.
  assert (Hpos : Forall (fun s => 0 < s)
                   (map (attr_size_of layout) (std_sort col_ids))).
  { apply Forall_forall. intros s Hs. apply list_elem_of_In, in_map_iff in Hs.
    destruct Hs as (c & <- & Hc). apply list_elem_of_In in Hc.
    rewrite Forall_forall in Hsorted.
    pose proof (attr_range layout Hlayout c (Hsorted c Hc)). lia. }
  assert (Ha0 : 1 <= attr_size_of layout (hd 0%nat (std_sort col_ids)) <= 16).
  { destruct (std_sort col_ids) as [| c0 rest]; [simpl in Hsl; lia |].
    simpl. apply attr_range; [assumption | now inversion Hsorted]. }
  subst p. unfold Reference.plan. rewrite <- std_sort_sort_asc, Hsl. fold n.
  assert (Hn : 1 <= n <= 65535) by (unfold n; lia).
  assert (Hhb : header_bytes hdr n
                = Reference.pad_to 8 (Reference.pad_to 4 (hdr + 2 * n) + 4 * n)).
  { unfold header_bytes. now rewrite !AlignedPtr_pad_to by lia. }
  rewrite <- Hhb. rewrite SizeInBytes_bitmap_bytes by lia.
  set (bits_end := header_bytes hdr n + Reference.bitmap_bytes n).
  pose proof (pad_to_bounds (attr_size_of layout (hd 0%nat (std_sort col_ids)))
                bits_end ltac:(lia)) as Hp3.
  set (start := Reference.pad_to _ bits_end) in *.
  destruct (place_offsets_range _ start Hpos) as [Hle _].
  split; [now rewrite place_length, List.length_map |].
  split; [lia |]. split.
  { apply place_total_aligned. intros Hnil.
    apply (f_equal (@length Z)) in Hnil.
    rewrite List.length_map in Hnil. simpl in Hnil. lia. }
  intros i c o Hc Ho.
  assert (Hs : map (attr_size_of layout) (std_sort col_ids) !! i
               = Some (attr_size_of layout c)).
  { change (map (attr_size_of layout) (std_sort col_ids))
      with (attr_size_of layout <$> std_sort col_ids).
    now rewrite list_lookup_fmap, Hc. }
  destruct (place_slots _ start i o _ Hpos Ho Hs) as (H1 & H2 & H3).
  split; [lia |]. split; [exact H2 | exact H3].
Qed.

Lemma valid_attr_size_divide a b :
  valid_attr_size a = true -> valid_attr_size b = true -> b <= a -> (b | a).
Proof.
  intros Ha Hb Hle.
  apply valid_attr_size_cases in Ha. apply valid_attr_size_cases in Hb.
  apply Z.mod_divide; [lia |].
  destruct Ha as [-> | [-> | [-> | [-> | ->]]]];
    destruct Hb as [-> | [-> | [-> | [-> | ->]]]];
    try reflexivity; lia.
Qed.

(** With attribute sizes that do not increase along the plan, no padding
    is put between two slots. *)
Lemma place_dense sizes : forall sz i o s o',
  Forall (fun s => valid_attr_size s = true) sizes ->
  Sorted (fun a b => b <= a) sizes ->
  sz mod hd 1 sizes = 0 ->
  (Reference.place sizes sz).1 !! i = Some o ->
  sizes !! i = Some s ->
  (Reference.place sizes sz).1 !! S i = Some o' ->
  o' = o + s.
Proof.
  induction sizes as [| s0 rest IH]; intros sz i o s o' Hval Hsorted Hsz Ho Hs Ho';
    [discriminate |].
  inversion Hval as [| ? ? Hs0 Hrest]; subst.
  inversion Hsorted as [| ? ? Hsorted' Hhd]; subst.
  cbn [Reference.place hd] in *.
  destruct rest as [| s1 rest'].
  - cbn in Ho'. destruct i; cbn in Ho'; discriminate.
  - inversion Hhd as [| ? ? Hle]; subst.
    inversion Hrest as [| ? ? Hs1 _]; subst.
    pose proof (valid_attr_size_cases _ Hs0) as Hc0.
    pose proof (valid_attr_size_cases _ Hs1) as Hc1.
    assert (Hdiv : (sz + s0) mod s1 = 0).
    { apply Z.mod_divide; [lia |].
      pose proof (valid_attr_size_divide s0 s1 Hs0 Hs1 Hle) as H10.
      apply Z.divide_add_r; [| exact H10].
      apply Z.divide_trans with s0; [exact H10 |].
      apply Z.mod_divide; [lia | exact Hsz]. }
    rewrite (pad_to_id s1 (sz + s0)) in * by lia.
    specialize (IH (sz + s0)).
    destruct (Reference.place (s1 :: rest') (sz + s0)) as [offs total] eqn:Hpl.
    cbn [fst snd] in *.
    destruct i as [| i]; cbn in Ho, Hs, Ho'.
    + injection Ho as <-. injection Hs as <-.
      cbn [Reference.place] in Hpl.
      destruct (Reference.place rest' _) as [offs' total'].
      injection Hpl as <- <-. cbn in Ho'. congruence.
    + exact (IH i o s o' Hrest Hsorted' Hdiv Ho Hs Ho').
Qed.

Lemma non_increasing_nth l : non_increasing l = true ->
  forall i j, (i <= j < length l)%nat -> nth j l 0 <= nth i l 0.
Proof.
  induction l as [| a l IH]; intros Hni i j Hij; [simpl in Hij; lia |].
  destruct l as [| b l'].
  - simpl in Hij. assert (i = 0%nat /\ j = 0%nat) as [-> ->] by lia. lia.
  - cbn [non_increasing] in Hni. apply andb_prop in Hni as [Hba Hni].
    specialize (IH Hni).
    destruct j as [| j]; [assert (i = 0%nat) as -> by lia; lia |].
    destruct i as [| i].
    + pose proof (IH 0%nat j ltac:(simpl in *; lia)) as H0.
      change (nth 0 (b :: l') 0) with b in H0.
      change (nth (S j) (a :: b :: l') 0) with (nth j (b :: l') 0).
      change (nth 0 (a :: b :: l') 0) with a. lia.
    + change (nth (S j) (a :: b :: l') 0) with (nth j (b :: l') 0).
      change (nth (S i) (a :: b :: l') 0) with (nth i (b :: l') 0).
      apply IH. simpl in *. lia.
Qed.

Lemma attr_size_of_non_increasing layout c c' :
  valid_layout layout = true ->
  non_increasing (attr_sizes_ layout) = true ->
  (c <= c')%nat -> attr_size_of layout c' <= attr_size_of layout c.
Proof.
  intros Hlayout Hni Hcc. unfold attr_size_of.
  destruct (Nat.lt_ge_cases c' (length (attr_sizes_ layout))) as [Hin | Hout].
  - apply non_increasing_nth; [assumption | lia].
  - rewrite (nth_overflow _ _ Hout).
    destruct (Nat.lt_ge_cases c (length (attr_sizes_ layout))) as [Hin | Hout'].
    + pose proof (attr_range layout Hlayout c Hin). unfold attr_size_of in *. lia.
    + rewrite (nth_overflow _ _ Hout'). lia.
Qed.

(** ** The constructor of [ProjectedRowInitializer] *)

(** X1.  The initializer does not depend on the order in which the columns
    are requested: two projection lists that are permutations of one another
    give the same outcome of the constructor, for every layout. *)
Theorem ProjectedRowInitializer_new_permutation hdr layout col_ids col_ids' :
  col_ids ≡ₚ col_ids' ->
  ProjectedRowInitializer_new hdr layout col_ids
  = ProjectedRowInitializer_new hdr layout col_ids'.
Proof.
  intros Hperm.
  assert (Hsort : std_sort col_ids = std_sort col_ids').
  { apply (Sorted_unique Nat.le); try apply std_sort_Sorted.
    now rewrite !std_sort_Permutation. }
  assert (Hlen : length col_ids = length col_ids') by now rewrite Hperm.
  assert (Hnil : bool_decide (col_ids = []) = bool_decide (col_ids' = [])).
  { destruct col_ids, col_ids'; try reflexivity; simpl in Hlen; lia. }
  unfold ProjectedRowInitializer_new. now rewrite Hsort, Hlen, Hnil.
Qed.

Lemma ProjectedRowInitializer_new_permutation_witness :
  [3; 1; 2]%nat ≡ₚ [2; 3; 1]%nat /\
  ProjectedRowInitializer_new 8 (mkBlockLayout [8; 8; 4; 2; 1] 32) [3; 1; 2]%nat
  = ProjectedRowInitializer_new 8 (mkBlockLayout [8; 8; 4; 2; 1] 32) [2; 3; 1]%nat.
Proof.
  assert (H : [3; 1; 2]%nat ≡ₚ [2; 3; 1]%nat) by (apply (bool_decide_unpack _); vm_compute; exact I).
  split; [exact H |].
  exact (ProjectedRowInitializer_new_permutation 8
           (mkBlockLayout [8; 8; 4; 2; 1] 32) _ _ H).
Defined.

(** X2.  For a valid layout and projection list the value slots of the
    initializer are laid out behind the null bitmap, within the size of the
    row and without overlap: every slot starts at or after the end of the
    bitmap, ends at or before the start of the next slot, and ends within
    [size_]; and [size_] is a multiple of 8. *)
Theorem ProjectedRowInitializer_new_slots hdr layout col_ids :
  valid_layout layout = true ->
  valid_projection layout col_ids = true ->
  0 <= hdr <= 2 ^ 16 ->
  exists init,
    ProjectedRowInitializer_new hdr layout col_ids = Done init /\
    length (offsets_ init) = length col_ids /\
    size_ init mod 8 = 0 /\
    forall i c o s,
      col_ids_ init !! i = Some c -> offsets_ init !! i = Some o ->
      AttrSize layout c = Done s ->
      header_bytes hdr (Z.of_nat (length col_ids))
        + SizeInBytes (Z.of_nat (length col_ids)) <= o /\
      o + s <= size_ init /\
      forall o', offsets_ init !! S i = Some o' -> o + s <= o'.
Proof.
  intros Hlayout Hproj Hhdr.
  destruct (plan_geometry hdr layout col_ids Hlayout Hproj Hhdr)
    as (Hlen & _ & Halign & Hslots).
  destruct (valid_projection_facts _ _ Hproj) as (_ & _ & Hall).
  eexists. split; [apply ProjectedRowInitializer_new_plan; assumption |].
  cbn [offsets_ col_ids_ size_].
  split; [exact Hlen |]. split; [exact Halign |].
  intros i c o s Hc Ho Hs.
  assert (Hin : (c < length (attr_sizes_ layout))%nat).
  { rewrite Forall_forall in Hall. apply Hall.
    rewrite <- (std_sort_Permutation col_ids).
    apply list_elem_of_lookup. eauto. }
  rewrite (AttrSize_in_layout layout c Hin) in Hs. injection Hs as <-.
  exact (Hslots i c o Hc Ho).
Qed.

Lemma ProjectedRowInitializer_new_slots_witness :
  let layout := mkBlockLayout [8; 8; 4; 2; 1] 32 in
  valid_layout layout = true /\
  valid_projection layout [4; 1; 2]%nat = true /\
  exists init,
    ProjectedRowInitializer_new 8 layout [4; 1; 2]%nat = Done init /\
    length (offsets_ init) = length [4; 1; 2]%nat /\
    size_ init mod 8 = 0 /\
    forall i c o s,
      col_ids_ init !! i = Some c -> offsets_ init !! i = Some o ->
      AttrSize layout c = Done s ->
      header_bytes 8 (Z.of_nat (length [4; 1; 2]%nat))
        + SizeInBytes (Z.of_nat (length [4; 1; 2]%nat)) <= o /\
      o + s <= size_ init /\
      forall o', offsets_ init !! S i = Some o' -> o + s <= o'.
Proof.
  intros layout.
  split; [reflexivity |]. split; [reflexivity |].
  exact (ProjectedRowInitializer_new_slots 8 layout [4; 1; 2]%nat
           eq_refl eq_refl ltac:(lia)).
Defined.

(** X3.  When the attribute sizes of the layout do not increase with the
    column id, sorting the projection list packs the values without
    padding: every value slot starts exactly where the previous one ends. *)
Theorem ProjectedRowInitializer_new_dense hdr layout col_ids :
  valid_layout layout = true ->
  valid_projection layout col_ids = true ->
  non_increasing (attr_sizes_ layout) = true ->
  0 <= hdr <= 2 ^ 16 ->
  exists init,
    ProjectedRowInitializer_new hdr layout col_ids = Done init /\
    forall i c o s o',
      col_ids_ init !! i = Some c -> offsets_ init !! i = Some o ->
      AttrSize layout c = Done s ->
      offsets_ init !! S i = Some o' ->
      o' = o + s.
Proof.
  intros Hlayout Hproj Hni Hhdr.
  destruct (valid_projection_facts _ _ Hproj) as (_ & _ & Hall).
  assert (Hsorted : Forall (fun c => (c < length (attr_sizes_ layout))%nat)
                      (std_sort col_ids))
    by now rewrite std_sort_Permutation.
  eexists. split; [apply ProjectedRowInitializer_new_plan; assumption |].
  cbn [offsets_ col_ids_ size_].
  intros i c o s o' Hc Ho Hs Ho'.
  assert (Hin : (c < length (attr_sizes_ layout))%nat).
  { rewrite Forall_forall in Hsorted. apply Hsorted.
    apply list_elem_of_lookup. eauto. }
  rewrite (AttrSize_in_layout layout c Hin) in Hs. injection Hs as <-.
  unfold Reference.plan in Ho, Ho'. rewrite <- std_sort_sort_asc in Ho, Ho'.
  set (sizes := map (attr_size_of layout) (std_sort col_ids)) in *.
  assert (Hval : Forall (fun s => valid_attr_size s = true) sizes).
  { apply Forall_forall. intros s Hs. apply list_elem_of_In, in_map_iff in Hs.
    destruct Hs as (c1 & <- & Hc1). apply list_elem_of_In in Hc1.
    rewrite Forall_forall in Hsorted. apply attr_valid; auto. }
  assert (Hdesc : Sorted (fun a b => b <= a) sizes).
  { unfold sizes. change (map (attr_size_of layout) (std_sort col_ids))
      with (attr_size_of layout <$> std_sort col_ids).
    apply (Sorted_fmap _ Nat.le); [| apply std_sort_Sorted].
    intros x y Hxy. now apply attr_size_of_non_increasing. }
  assert (Hsi : sizes !! i = Some (attr_size_of layout c)).
  { unfold sizes. change (map (attr_size_of layout) (std_sort col_ids))
      with (attr_size_of layout <$> std_sort col_ids).
    now rewrite list_lookup_fmap, Hc. }
  refine (place_dense sizes _ i o _ o' Hval Hdesc _ Ho Hsi Ho').
  assert (Hhd : hd 1 sizes = attr_size_of layout (hd 0%nat (std_sort col_ids))).
  { unfold sizes. destruct (std_sort col_ids); [discriminate | reflexivity]. }
  rewrite Hhd. apply pad_to_aligned.
  destruct (std_sort col_ids) as [| c0 rest]; [discriminate |].
  simpl. inversion Hsorted; subst.
  pose proof (attr_range layout Hlayout c0 ltac:(assumption)). lia.
Qed.

Lemma ProjectedRowInitializer_new_dense_witness :
  let layout := mkBlockLayout [8; 8; 4; 2; 1] 32 in
  valid_layout layout = true /\
  valid_projection layout [4; 1; 2]%nat = true /\
  non_increasing (attr_sizes_ layout) = true /\
  exists init,
    ProjectedRowInitializer_new 8 layout [4; 1; 2]%nat = Done init /\
    forall i c o s o',
      col_ids_ init !! i = Some c -> offsets_ init !! i = Some o ->
      AttrSize layout c = Done s ->
      offsets_ init !! S i = Some o' ->
      o' = o + s.
Proof.
  intros layout.
  split; [reflexivity |]. split; [reflexivity |]. split; [reflexivity |].
  exact (ProjectedRowInitializer_new_dense 8 layout [4; 1; 2]%nat
           eq_refl eq_refl eq_refl ltac:(lia)).
Defined.

(** ** Rows in memory *)

(** [InitializeRow] with an initializer built by the constructor: the fields
    of the row, and the bytes it leaves alone. *)
Lemma InitializeRow_of_new hdr layout col_ids init m head :
  valid_layout layout = true ->
  valid_projection layout col_ids = true ->
  6 <= hdr <= 2 ^ 16 ->
  ProjectedRowInitializer_new hdr layout col_ids = Done init ->
  head mod 8 = 0 ->
  let n := Z.of_nat (length col_ids) in
  exists m',
    InitializeRow hdr init m head = Done (head, m') /\
    Size m' head = size_ init /\
    NumColumns m' head = n /\
    (forall i c, col_ids_ init !! i = Some c ->
       ColumnId hdr m' head i = Z.of_nat c) /\
    (forall i o, offsets_ init !! i = Some o ->
       AttrValueOffset hdr m' head i = o) /\
    (forall i, (i < length col_ids)%nat ->
       Test m' (Bitmap hdr m' head) (Z.of_nat i) = false) /\
    agree_outside head (head + (header_bytes hdr n + SizeInBytes n)) m m' /\
    header_bytes hdr n + SizeInBytes n <= size_ init /\
    (forall o, o ∈ offsets_ init -> header_bytes hdr n + SizeInBytes n <= o).
Proof.
  intros Hlayout Hproj Hhdr Hnew Hhead n.
  rewrite ProjectedRowInitializer_new_plan in Hnew by (try assumption; lia).
  injection Hnew as <-.
  destruct (plan_range hdr layout col_ids Hlayout Hproj ltac:(lia))
    as [Hsize Hoffs].
  destruct (plan_geometry hdr layout col_ids Hlayout Hproj ltac:(lia))
    as (Hplen & Hfit & _ & Hslots).
  fold n in Hfit, Hslots.
  destruct (valid_projection_facts _ _ Hproj) as (Hne & Hnd & Hall).
  pose proof (valid_projection_length _ _ Hproj) as Hlen.
  pose proof (NumCols_bound layout Hlayout) as Hcols. unfold NumCols in Hcols.
  set (init := mkInitializer _ _ _).
  assert (Hlo : length (offsets_ init) = length (col_ids_ init)).
  { cbn [init offsets_ col_ids_]. now rewrite Hplen, std_sort_length. }
  destruct (InitializeRow_spec hdr ltac:(lia) init
              ltac:(cbn [init col_ids_]; rewrite std_sort_length; lia)
              Hlo m head Hhead)
    as (m' & Hrun & Hsz & Hnum & Hids & Hoff & Hbits & Hout).
  cbn [init size_ col_ids_ offsets_] in *.
  rewrite std_sort_length in *. fold n in Hnum, Hout.
  assert (Hbm : AlignedPtr 8 (AlignedPtr 4 (head + hdr + 2 * n) + 4 * n)
                = head + header_bytes hdr n).
  { unfold header_bytes. rewrite <- (Z.add_assoc head).
    rewrite (AlignedPtr_shift 4) by (try apply mod_8_mod_4; lia).
    rewrite <- (Z.add_assoc head).
    now rewrite (AlignedPtr_shift 8) by lia. }
  rewrite Hbm, <- Z.add_assoc in Hout.
  exists m'. split; [exact Hrun |].
  split; [rewrite Hsz; apply Z.mod_small; lia |].
  split; [exact Hnum |].
  split; [| split; [| split; [exact Hbits | split; [exact Hout | split]]]].
  - intros i c Hc. rewrite (Hids i c Hc). apply Z.mod_small.
    assert (c ∈ col_ids)
      by (rewrite <- (std_sort_Permutation col_ids);
          apply list_elem_of_lookup; eauto).
    rewrite Forall_forall in Hall. specialize (Hall c ltac:(assumption)). lia.
  - intros i o Ho. rewrite (Hoff i o Ho). apply Z.mod_small.
    rewrite Forall_forall in Hoffs. apply Hoffs.
    apply list_elem_of_lookup. eauto.
  - exact Hfit.
  - intros o Ho. apply list_elem_of_lookup in Ho as [i Ho].
    assert (Hi : (i < length (std_sort col_ids))%nat).
    { rewrite std_sort_length, <- Hplen. eapply lookup_lt_Some, Ho. }
    destruct (lookup_lt_is_Some_2 _ _ Hi) as [c Hc].
    now destruct (Hslots i c o Hc Ho).
Qed.

(** X4.  [InitializeRow] writes only the header and the null bitmap of the
    row: it leaves every byte outside the buffer of [size_] bytes as it was,
    and every byte of the buffer from the first value slot on. *)
Theorem InitializeRow_confined hdr layout col_ids init m head :
  valid_layout layout = true ->
  valid_projection layout col_ids = true ->
  6 <= hdr <= 2 ^ 16 ->
  ProjectedRowInitializer_new hdr layout col_ids = Done init ->
  head mod 8 = 0 ->
  exists m',
    InitializeRow hdr init m head = Done (head, m') /\
    (forall x, x < head \/ head + size_ init <= x -> m' x = m x) /\
    (forall o x, o ∈ offsets_ init -> head + o <= x -> m' x = m x).
Proof.
  intros Hlayout Hproj Hhdr Hnew Hhead.
  destruct (InitializeRow_of_new hdr layout col_ids init m head
              Hlayout Hproj Hhdr Hnew Hhead)
    as (m' & Hrun & _ & _ & _ & _ & _ & Hout & Hfit & Hfirst).
  exists m'. split; [exact Hrun |]. split.
  - intros x Hx. apply Hout. lia.
  - intros o x Ho Hx. specialize (Hfirst o Ho). apply Hout. lia.
Qed.

Lemma InitializeRow_confined_witness :
  let layout := mkBlockLayout [8; 8; 4; 2; 1] 32 in
  let init := mkInitializer 48 [1; 3]%nat [32; 40] in
  let m : mem := fun _ => Byte.xff in
  valid_layout layout = true /\
  valid_projection layout [3; 1]%nat = true /\
  ProjectedRowInitializer_new 8 layout [3; 1]%nat = Done init /\
  64 mod 8 = 0 /\
  exists m',
    InitializeRow 8 init m 64 = Done (64, m') /\
    (forall x, x < 64 \/ 64 + size_ init <= x -> m' x = m x) /\
    (forall o x, o ∈ offsets_ init -> 64 + o <= x -> m' x = m x).
Proof.
  intros layout init m.
  assert (Hnew : ProjectedRowInitializer_new 8 layout [3; 1]%nat = Done init)
    by (vm_compute; reflexivity).
  split; [reflexivity |]. split; [reflexivity |].
  split; [exact Hnew |]. split; [reflexivity |].
  exact (InitializeRow_confined 8 layout [3; 1]%nat init m 64
           eq_refl eq_refl ltac:(lia) Hnew eq_refl).
Defined.

(** The fields of the destination of [CopyProjectedRowLayout]. *)
Lemma CopyProjectedRowLayout_fields hdr m head other :
  6 <= hdr ->
  head mod 8 = 0 ->
  other mod 8 = 0 ->
  Bitmap hdr m other + SizeInBytes (NumColumns m other) <= other + Size m other ->
  head + Size m other <= other \/ other + Size m other <= head ->
  exists m',
    CopyProjectedRowLayout hdr m head other = Done (head, m') /\
    Size m' head = Size m other /\
    NumColumns m' head = NumColumns m other /\
    (forall i, Z.of_nat i < NumColumns m other ->
       ColumnId hdr m' head i = ColumnId hdr m other i /\
       AttrValueOffset hdr m' head i = AttrValueOffset hdr m other i /\
       Test m' (Bitmap hdr m' head) (Z.of_nat i) = false) /\
    agree_outside head (head + Size m other) m m'.
Proof.
  intros Hhdr Hhead Hother Hsize Hdisj.
  rewrite (Bitmap_header_bytes hdr m other Hother) in *.
  set (n := NumColumns m other) in *.
  set (header_size := header_bytes hdr n) in *.
  assert (Hn : 0 <= n < 2 ^ 16).
  { unfold n, NumColumns, load_u16.
    pose proof (load_uint_range 2 m (other + 4)) as H. simpl in H. lia. }
  destruct (header_bytes_bounds hdr n ltac:(lia)) as [Hb1 Hb2].
  fold header_size in Hb2.
  assert (Hbm : 0 <= SizeInBytes n).
  { rewrite SizeInBytes_bitmap_bytes by lia. apply Z.div_pos; lia. }
  destruct (CopyProjectedRowLayout_spec hdr Hhdr m head other Hhead Hother
              ltac:(fold n header_size; lia) Hdisj)
    as (m' & Hrun & Hcopy & HB & Hbits & Hout).
  fold n header_size in Hcopy, HB, Hbits, Hout.
  assert (Hload : forall w k, 0 <= k -> k + Z.of_nat w <= header_size ->
                   load_uint w m' (head + k) = load_uint w m (other + k)).
  { intros w k Hk Hkw. apply load_uint_shift. intros j Hj.
    rewrite <- !Z.add_assoc. apply Hcopy. lia. }
  assert (Hnum : NumColumns m' head = n)
    by (apply (Hload 2%nat 4); simpl; lia).
  assert (HA : forall row, row mod 8 = 0 ->
            forall mm, NumColumns mm row = n ->
            AttrValueOffsets hdr mm row = row + AlignedPtr 4 (hdr + 2 * n)).
  { intros row Hrow mm Hmm. unfold AttrValueOffsets, ColumnIds. rewrite Hmm.
    rewrite <- Z.add_assoc.
    apply AlignedPtr_shift; [lia | now apply mod_8_mod_4]. }
  exists m'. split; [exact Hrun |].
  split; [| split; [exact Hnum | split]].
  - unfold Size, load_u32.
    rewrite <- (Z.add_0_r head), <- (Z.add_0_r other).
    apply Hload; simpl; lia.
  - intros i Hi. split; [| split].
    + unfold ColumnId, ColumnIds, load_u16. rewrite <- !Z.add_assoc.
      apply Hload; simpl; lia.
    + unfold AttrValueOffset, load_u32.
      rewrite (HA head Hhead m' Hnum), (HA other Hother m eq_refl).
      rewrite <- !Z.add_assoc. apply Hload; simpl; lia.
    + apply Hbits. lia.
  - intros x Hx. apply Hout. lia.
Qed.

(** X5.  Copying the layout of a freshly initialized row gives a row that
    reads like a freshly initialized one: [InitializeRow] on a buffer and
    then [CopyProjectedRowLayout] to a second, disjoint buffer succeed, the
    copy has the size, the number of columns, the column ids and the offsets
    of the initializer, all its columns are null, and the first row is not
    changed by the copy. *)
Theorem InitializeRow_then_copy hdr layout col_ids init m head other :
  valid_layout layout = true ->
  valid_projection layout col_ids = true ->
  6 <= hdr <= 2 ^ 16 ->
  ProjectedRowInitializer_new hdr layout col_ids = Done init ->
  other mod 8 = 0 ->
  head mod 8 = 0 ->
  head + size_ init <= other \/ other + size_ init <= head ->
  exists m1 m2,
    InitializeRow hdr init m other = Done (other, m1) /\
    CopyProjectedRowLayout hdr m1 head other = Done (head, m2) /\
    Size m2 head = size_ init /\
    NumColumns m2 head = Z.of_nat (length col_ids) /\
    (forall i c, col_ids_ init !! i = Some c ->
       ColumnId hdr m2 head i = Z.of_nat c) /\
    (forall i o, offsets_ init !! i = Some o ->
       AttrValueOffset hdr m2 head i = o) /\
    (forall i, (i < length col_ids)%nat ->
       Row_AccessWithNullCheck hdr m2 head i = nullptr) /\
    (forall x, other <= x < other + size_ init -> m2 x = m1 x).
Proof.
  intros Hlayout Hproj Hhdr Hnew Hother Hhead Hdisj.
  destruct (InitializeRow_of_new hdr layout col_ids init m other
              Hlayout Hproj Hhdr Hnew Hother)
    as (m1 & Hrun1 & Hsz1 & Hnum1 & Hids1 & Hoff1 & _ & _ & Hfit & _).
  assert (Hlen_ids : length (col_ids_ init) = length col_ids).
  { rewrite ProjectedRowInitializer_new_plan in Hnew by (try assumption; lia).
    injection Hnew as <-. apply std_sort_length. }
  assert (Hlen_off : length (offsets_ init) = length col_ids).
  { rewrite ProjectedRowInitializer_new_plan in Hnew by (try assumption; lia).
    injection Hnew as <-.
    now destruct (plan_geometry hdr layout col_ids Hlayout Hproj ltac:(lia)). }
  destruct (CopyProjectedRowLayout_fields hdr m1 head other ltac:(lia)
              Hhead Hother)
    as (m2 & Hrun2 & Hsz2 & Hnum2 & Hfields & Hout).
  { rewrite (Bitmap_header_bytes hdr m1 other Hother), Hnum1, Hsz1. lia. }
  { now rewrite Hsz1. }
  rewrite Hsz1 in Hsz2, Hout. rewrite Hnum1 in Hnum2, Hfields.
  exists m1, m2. split; [exact Hrun1 |]. split; [exact Hrun2 |].
  split; [exact Hsz2 |]. split; [exact Hnum2 |].
  split; [| split; [| split]].
  - intros i c Hc.
    pose proof (lookup_lt_Some _ _ _ Hc) as Hi. rewrite Hlen_ids in Hi.
    destruct (Hfields i ltac:(lia)) as (Hid & _ & _).
    rewrite Hid. now apply Hids1.
  - intros i o Ho.
    pose proof (lookup_lt_Some _ _ _ Ho) as Hi. rewrite Hlen_off in Hi.
    destruct (Hfields i ltac:(lia)) as (_ & Hoff & _).
    rewrite Hoff. now apply Hoff1.
  - intros i Hi. destruct (Hfields i ltac:(lia)) as (_ & _ & Hbit).
    unfold Row_AccessWithNullCheck. now rewrite Hbit.
  - intros x Hx. apply Hout. lia.
Qed.

Lemma InitializeRow_then_copy_witness :
  let layout := mkBlockLayout [8; 8; 4; 2; 1] 32 in
  let init := mkInitializer 48 [1; 3]%nat [32; 40] in
  let m : mem := fun _ => Byte.xff in
  valid_layout layout = true /\
  valid_projection layout [3; 1]%nat = true /\
  ProjectedRowInitializer_new 8 layout [3; 1]%nat = Done init /\
  64 mod 8 = 0 /\ 128 mod 8 = 0 /\
  (128 + size_ init <= 64 \/ 64 + size_ init <= 128) /\
  exists m1 m2,
    InitializeRow 8 init m 64 = Done (64, m1) /\
    CopyProjectedRowLayout 8 m1 128 64 = Done (128, m2) /\
    Size m2 128 = size_ init /\
    NumColumns m2 128 = Z.of_nat (length [3; 1]%nat) /\
    (forall i c, col_ids_ init !! i = Some c ->
       ColumnId 8 m2 128 i = Z.of_nat c) /\
    (forall i o, offsets_ init !! i = Some o ->
       AttrValueOffset 8 m2 128 i = o) /\
    (forall i, (i < length [3; 1]%nat)%nat ->
       Row_AccessWithNullCheck 8 m2 128 i = nullptr) /\
    (forall x, 64 <= x < 64 + size_ init -> m2 x = m1 x).
Proof.
  intros layout init m.
  assert (Hnew : ProjectedRowInitializer_new 8 layout [3; 1]%nat = Done init)
    by (vm_compute; reflexivity).
  assert (Hdisj : 128 + size_ init <= 64 \/ 64 + size_ init <= 128)
    by (right; simpl; lia).
  split; [reflexivity |]. split; [reflexivity |]. split; [exact Hnew |].
  split; [reflexivity |]. split; [reflexivity |]. split; [exact Hdisj |].
  exact (InitializeRow_then_copy 8 layout [3; 1]%nat init m 128 64
           eq_refl eq_refl ltac:(lia) Hnew eq_refl eq_refl Hdisj).
Defined.

(** ** UndoRecord *)

(** X6.  [UndoRecord::Initialize] at an 8-byte aligned address returns the
    address as a record whose [next_] is null, whose timestamp, table and
    slot are the ones given, and whose payload is a row of the initializer
    with every column null; it writes nothing outside the 32 bytes of the
    record header and the [size_] bytes of the row.  At an address that is
    not 8-byte aligned it fails the alignment assertion of [InitializeRow],
    the payload being 32 bytes behind the head. *)
Theorem UndoRecord_Initialize_fields hdr layout col_ids init m head
    timestamp slot table :
  valid_layout layout = true ->
  valid_projection layout col_ids = true ->
  6 <= hdr <= 2 ^ 16 ->
  ProjectedRowInitializer_new hdr layout col_ids = Done init ->
  0 <= timestamp < 2 ^ 64 ->
  0 <= table < 2 ^ 64 ->
  0 <= bytes_ slot < 2 ^ 64 ->
  if head mod 8 =? 0 then
    exists m',
      UndoRecord.Initialize hdr m head timestamp slot table init
      = Done (head, m') /\
      load_u64 m' (UndoRecord.next_addr head) = nullptr /\
      load_u64 m' (UndoRecord.timestamp_addr head) = timestamp /\
      load_u64 m' (UndoRecord.table_addr head) = table /\
      load_u64 m' (UndoRecord.slot_addr head) = bytes_ slot /\
      Size m' (UndoRecord.varlen_contents_ head) = size_ init /\
      NumColumns m' (UndoRecord.varlen_contents_ head)
      = Z.of_nat (length col_ids) /\
      (forall i c, col_ids_ init !! i = Some c ->
         ColumnId hdr m' (UndoRecord.varlen_contents_ head) i = Z.of_nat c) /\
      (forall i, (i < length col_ids)%nat ->
         Row_AccessWithNullCheck hdr m' (UndoRecord.varlen_contents_ head) i
         = nullptr) /\
      (forall x, x < head \/ head + 32 + size_ init <= x -> m' x = m x)
  else
    exists msg,
      UndoRecord.Initialize hdr m head timestamp slot table init
      = AssertionFailure msg.
Proof.
  intros Hlayout Hproj Hhdr Hnew Hts Htable Hslot.
  assert (Hmod : (head + 32) mod 8 = head mod 8).
  { replace (head + 32) with (head + 4 * 8) by lia. apply Z.mod_add. lia. }
  unfold UndoRecord.Initialize, UndoRecord.varlen_contents_.
  destruct (Z.eqb_spec (head mod 8) 0) as [Hhead | Hhead].
  - set (m1 := store_u64 m (UndoRecord.next_addr head) nullptr).
    set (m2 := store_u64 m1 (UndoRecord.timestamp_addr head) timestamp).
    set (m3 := store_u64 m2 (UndoRecord.table_addr head) table).
    set (m4 := store_u64 m3 (UndoRecord.slot_addr head) (bytes_ slot)).
    pose proof (store_uint_outside 8 m (UndoRecord.next_addr head) nullptr) as H1.
    pose proof (store_uint_outside 8 m1 (UndoRecord.timestamp_addr head) timestamp) as H2.
    pose proof (store_uint_outside 8 m2 (UndoRecord.table_addr head) table) as H3.
    pose proof (store_uint_outside 8 m3 (UndoRecord.slot_addr head) (bytes_ slot)) as H4.
    fold (store_u64 m (UndoRecord.next_addr head) nullptr) in H1.
    fold (store_u64 m1 (UndoRecord.timestamp_addr head) timestamp) in H2.
    fold (store_u64 m2 (UndoRecord.table_addr head) table) in H3.
    fold (store_u64 m3 (UndoRecord.slot_addr head) (bytes_ slot)) in H4.
    fold m1 in H1. fold m2 in H2. fold m3 in H3. fold m4 in H4.
    unfold UndoRecord.next_addr, UndoRecord.timestamp_addr,
      UndoRecord.table_addr, UndoRecord.slot_addr in *.
    simpl Z.of_nat in H1, H2, H3, H4.
    destruct (InitializeRow_of_new hdr layout col_ids init m4 (head + 32)
                Hlayout Hproj Hhdr Hnew ltac:(lia))
      as (m' & Hrun & Hsz & Hnum & Hids & _ & Hbits & Hout & Hfit & _).
    rewrite Hrun. cbn [obind snd].
    assert (Hbm : 0 <= SizeInBytes (Z.of_nat (length col_ids))).
    { pose proof (valid_projection_length _ _ Hproj).
      pose proof (NumCols_bound layout Hlayout). unfold NumCols in *.
      rewrite SizeInBytes_bitmap_bytes by lia. apply Z.div_pos; lia. }
    assert (Hfield : forall a, head <= a -> a + 8 <= head + 32 ->
                       load_u64 m' a = load_u64 m4 a).
    { intros a Ha1 Ha2. unfold load_u64.
      apply (load_uint_outside 8 _ _ m4 m' _ Hout). simpl. lia. }
    exists m'. split; [reflexivity |].
    split; [| split; [| split; [| split]]].
    + rewrite Hfield by lia. unfold load_u64.
      rewrite (load_uint_outside 8 _ _ m3 m4 _ H4) by (simpl; lia).
      rewrite (load_uint_outside 8 _ _ m2 m3 _ H3) by (simpl; lia).
      rewrite (load_uint_outside 8 _ _ m1 m2 _ H2) by (simpl; lia).
      unfold m1, store_u64. rewrite load_store_uint. reflexivity.
    + rewrite Hfield by lia. unfold load_u64.
      rewrite (load_uint_outside 8 _ _ m3 m4 _ H4) by (simpl; lia).
      rewrite (load_uint_outside 8 _ _ m2 m3 _ H3) by (simpl; lia).
      unfold m2, store_u64. rewrite load_store_uint.
      apply Z.mod_small. simpl. lia.
    + rewrite Hfield by lia. unfold load_u64.
      rewrite (load_uint_outside 8 _ _ m3 m4 _ H4) by (simpl; lia).
      unfold m3, store_u64. rewrite load_store_uint.
      apply Z.mod_small. simpl. lia.
    + rewrite Hfield by lia.
      unfold load_u64, m4, store_u64. rewrite load_store_uint.
      apply Z.mod_small. simpl. lia.
    + split; [exact Hsz |]. split; [exact Hnum |]. split; [exact Hids |].
      split.
      * intros i Hi. unfold Row_AccessWithNullCheck. now rewrite Hbits.
      * intros x Hx.
        destruct (header_bytes_bounds hdr (Z.of_nat (length col_ids))
                    ltac:(lia)) as [Hhb1 Hhb2].
        rewrite (Hout x) by lia. rewrite (H4 x) by lia.
        rewrite (H3 x) by lia. rewrite (H2 x) by lia. apply H1. lia.
  - unfold InitializeRow.
    rewrite (proj2 (Z.eqb_neq _ _)) by lia.
    eexists. reflexivity.
Qed.

Lemma UndoRecord_Initialize_fields_witness :
  let layout := mkBlockLayout [8; 8; 4; 2; 1] 32 in
  let init := mkInitializer 48 [1; 3]%nat [32; 40] in
  let m : mem := fun _ => Byte.xff in
  let slot := mkTupleSlot (2 ^ 20 + 3) in
  valid_layout layout = true /\
  valid_projection layout [3; 1]%nat = true /\
  ProjectedRowInitializer_new 8 layout [3; 1]%nat = Done init /\
  exists m',
    UndoRecord.Initialize 8 m 64 7 slot 4096 init = Done (64, m') /\
    load_u64 m' (UndoRecord.next_addr 64) = nullptr /\
    load_u64 m' (UndoRecord.timestamp_addr 64) = 7 /\
    load_u64 m' (UndoRecord.table_addr 64) = 4096 /\
    load_u64 m' (UndoRecord.slot_addr 64) = bytes_ slot /\
    Size m' (UndoRecord.varlen_contents_ 64) = size_ init /\
    NumColumns m' (UndoRecord.varlen_contents_ 64)
    = Z.of_nat (length [3; 1]%nat) /\
    (forall i c, col_ids_ init !! i = Some c ->
       ColumnId 8 m' (UndoRecord.varlen_contents_ 64) i = Z.of_nat c) /\
    (forall i, (i < length [3; 1]%nat)%nat ->
       Row_AccessWithNullCheck 8 m' (UndoRecord.varlen_contents_ 64) i
       = nullptr) /\
    (forall x, x < 64 \/ 64 + 32 + size_ init <= x -> m' x = m x).
Proof.
  intros layout init m slot.
  assert (Hnew : ProjectedRowInitializer_new 8 layout [3; 1]%nat = Done init)
    by (vm_compute; reflexivity).
  split; [reflexivity |]. split; [reflexivity |]. split; [exact Hnew |].
  exact (UndoRecord_Initialize_fields 8 layout [3; 1]%nat init m 64 7 slot 4096
           eq_refl eq_refl ltac:(lia) Hnew ltac:(lia) ltac:(lia)
           ltac:(simpl; lia)).
Defined.

(** ** Other slots and other uses of tuple access *)

Lemma AlignedPtr_aligned s p : 0 < s -> AlignedPtr s p mod s = 0.
Proof.
  intros Hs. rewrite AlignedPtr_pad_to by assumption.
  now apply pad_to_aligned.
Qed.

(** Flipping a bit leaves every other bit of the bitmap as it is. *)
Lemma Test_Flip_other m bitmap pos pos' e :
  0 <= pos -> 0 <= pos' -> pos <> pos' ->
  Test (snd (Flip m bitmap pos e)) bitmap pos' = Test m bitmap pos'.
Proof.
  intros Hpos Hpos' Hne. unfold Flip.
  destruct (Bool.eqb _ e); [| reflexivity]. cbn [snd].
  pose proof (Z.div_mod pos 8 ltac:(lia)) as Hdm.
  pose proof (Z.div_mod pos' 8 ltac:(lia)) as Hdm'.
  pose proof (Z.mod_pos_bound pos 8 ltac:(lia)) as Hk.
  pose proof (Z.mod_pos_bound pos' 8 ltac:(lia)) as Hk'.
  destruct (Z.eq_dec (pos / 8) (pos' / 8)) as [Hbyte | Hbyte].
  - rewrite !Test_testbit. rewrite <- Hbyte.
    unfold load_u8 at 1. unfold store_u8. rewrite load_store_uint.
    fold (load_u8 m (bitmap + pos / 8)).
    rewrite Z.mod_pow2_bits_low by (simpl; lia).
    rewrite Z.lxor_spec. unfold bit_mask.
    rewrite Z.shiftl_1_l, (Z.pow2_bits_false (pos mod 8) (pos' mod 8)) by lia.
    apply xorb_false_r.
  - apply (Test_outside _ _ _ _ _ _
             (store_uint_outside 1 m (bitmap + pos / 8) _)).
    simpl. lia.
Qed.

Section OtherSlots.

Variable tas : TupleAccessStrategy.
Variable slot : TupleSlot.
Variable col : nat.

Hypothesis Hcol : (Z.of_nat col <? NumCols (layout_ tas)) = true.

Let block := GetBlock slot.
Let offset := GetOffset slot.

(** [SetNull] on a slot: the mini block stays where it is and the bits of
    the other slots of the column stay as they are. *)
Lemma SetNull_other_bits m pos' :
  column_in_content tas m block col = true ->
  0 <= pos' -> pos' <> offset ->
  Block.Column (SetNull tas m slot col) block col = Block.Column m block col /\
  Test (SetNull tas m slot col) (ColumnNullBitmap m block col) pos'
  = Test m (ColumnNullBitmap m block col) pos'.
Proof.
  intros Hin Hpos' Hne.
  pose proof (GetOffset_range slot) as Hoff. fold offset in Hoff.
  pose proof (bit_address_bounds tas slot col m Hin) as Hbit. fold block offset in Hbit.
  assert (Hin' : block + block_header_size (layout_ tas)
                 <= ColumnNullBitmap m block col + pos' / 8).
  { unfold column_in_content in Hin.
    assert (0 <= pos' / 8) by (apply Z.div_pos; lia).
    unfold ColumnNullBitmap, MiniBlock.PresenceBitmap. lia. }
  unfold SetNull. fold block offset.
  set (bitmap := ColumnNullBitmap m block col) in *.
  pose proof (Flip_outside m bitmap offset true) as Hag.
  pose proof (Test_Flip_other m bitmap offset pos' true ltac:(lia) Hpos'
                ltac:(congruence)) as Hother.
  destruct (Flip m bitmap offset true) as [flipped m1]. cbn [snd] in *.
  assert (Hcolumn : Block.Column m1 block col = Block.Column m block col)
    by (apply (Column_outside tas slot col Hcol _ _ m m1 Hag); fold block; lia).
  destruct (flipped && bool_decide (col = PRESENCE_COLUMN_ID)).
  - pose proof (store_uint_outside 4 m1 (num_records_addr block)
                  (wrap32 (num_records_ m1 block - 1))) as Hdec.
    fold (store_u32 m1 (num_records_addr block)
            (wrap32 (num_records_ m1 block - 1))) in Hdec.
    fold (num_records_decrement m1 block) in Hdec.
    unfold num_records_addr in Hdec. simpl Z.of_nat in Hdec.
    split.
    + rewrite <- Hcolumn.
      apply (Column_outside tas slot col Hcol _ _ _ _ Hdec). fold block. lia.
    + rewrite (Test_outside _ _ _ _ _ _ Hdec); [exact Hother |].
      unfold block_header_size, Block.AttrSizes, Block.NumAttrs,
        Block.AttrOffets, Block.NumSlots, content_addr, NumCols in Hin'.
      lia.
  - split; [exact Hcolumn | exact Hother].
Qed.

End OtherSlots.

(** X7.  [SetNull] and [AccessForceNotNull] on one slot change nothing for
    the other slots of the block in that column: [AccessWithNullCheck] on
    another slot returns after the call what it returned before. *)
Theorem other_slots_unchanged tas m slot slot' col :
  valid_layout (layout_ tas) = true ->
  (Z.of_nat col <? NumCols (layout_ tas)) = true ->
  column_in_content tas m (GetBlock slot) col = true ->
  GetBlock slot' = GetBlock slot ->
  GetOffset slot' <> GetOffset slot ->
  AccessWithNullCheck tas (SetNull tas m slot col) slot' col
  = AccessWithNullCheck tas m slot' col /\
  exists p m1,
    AccessForceNotNull tas m slot col = Done (p, m1) /\
    AccessWithNullCheck tas m1 slot' col = AccessWithNullCheck tas m slot' col.
Proof.
  intros Hlayout Hcol Hin Hblock Hoffset.
  pose proof (GetOffset_range slot') as Hoff'.
  pose proof (GetOffset_range slot) as Hoff.
  assert (Hsame : forall m',
            Block.Column m' (GetBlock slot) col = Block.Column m (GetBlock slot) col ->
            Test m' (ColumnNullBitmap m (GetBlock slot) col) (GetOffset slot')
            = Test m (ColumnNullBitmap m (GetBlock slot) col) (GetOffset slot') ->
            AccessWithNullCheck tas m' slot' col
            = AccessWithNullCheck tas m slot' col).
  { intros m' Hcolumn Htest.
    rewrite !(AccessWithNullCheck_result tas slot' col Hlayout Hcol).
    rewrite Hblock. unfold slot_attr_address. rewrite Hblock.
    unfold ColumnNullBitmap in *. rewrite Hcolumn, Htest. reflexivity. }
  split.
  - destruct (SetNull_other_bits tas slot col Hcol m (GetOffset slot') Hin
                ltac:(lia) Hoffset) as [Hcolumn Htest].
    now apply Hsame.
  - destruct (AccessForceNotNull_result tas slot col Hlayout Hcol m Hin)
      as (m1 & Hrun & Hm1 & Hcolumn & _).
    exists (slot_attr_address tas slot col m), m1. split; [exact Hrun |].
    apply Hsame; [exact Hcolumn |].
    rewrite Hm1.
    destruct (Test m (ColumnNullBitmap m (GetBlock slot) col) (GetOffset slot));
      [reflexivity |].
    apply Test_Flip_other; [lia | lia | congruence].
Qed.

Lemma other_slots_unchanged_witness :
  let tas := example_tas in
  let m := example_live_block in
  let slot := example_slot in
  let slot' := mkTupleSlot (2 ^ 20 + 5) in
  valid_layout (layout_ tas) = true /\
  (Z.of_nat 0 <? NumCols (layout_ tas)) = true /\
  column_in_content tas m (GetBlock slot) 0 = true /\
  GetBlock slot' = GetBlock slot /\
  GetOffset slot' <> GetOffset slot /\
  AccessWithNullCheck tas (SetNull tas m slot 0) slot' 0
  = AccessWithNullCheck tas m slot' 0 /\
  exists p m1,
    AccessForceNotNull tas m slot 0 = Done (p, m1) /\
    AccessWithNullCheck tas m1 slot' 0 = AccessWithNullCheck tas m slot' 0.
Proof.
  intros tas m slot slot'.
  assert (H1 : column_in_content tas m (GetBlock slot) 0 = true)
    by (vm_compute; reflexivity).
  assert (H2 : GetBlock slot' = GetBlock slot) by reflexivity.
  assert (H3 : GetOffset slot' <> GetOffset slot) by (vm_compute; discriminate).
  split; [reflexivity |]. split; [reflexivity |]. split; [exact H1 |].
  split; [exact H2 |]. split; [exact H3 |].
  exact (other_slots_unchanged tas m slot slot' 0 eq_refl eq_refl H1 H2 H3).
Defined.

(** X8.  [AccessForceNotNull] never changes [num_records_], on the presence
    column either; so making the presence column of a free slot non-null
    with [AccessForceNotNull] and then calling [SetNull] on it leaves
    [num_records_] one below the value it had, modulo [2 ^ 32]. *)
Theorem AccessForceNotNull_num_records tas m slot col :
  valid_layout (layout_ tas) = true ->
  (Z.of_nat col <? NumCols (layout_ tas)) = true ->
  column_in_content tas m (GetBlock slot) col = true ->
  exists p m1,
    AccessForceNotNull tas m slot col = Done (p, m1) /\
    num_records_ m1 (GetBlock slot) = num_records_ m (GetBlock slot) /\
    (col = PRESENCE_COLUMN_ID ->
     num_records_ (SetNull tas m1 slot col) (GetBlock slot)
     = wrap32 (num_records_ m (GetBlock slot) - 1)).
Proof.
  intros Hlayout Hcol Hin.
  destruct (AccessForceNotNull_result tas slot col Hlayout Hcol m Hin)
    as (m1 & Hrun & _ & Hcolumn & Hbit & Hnum).
  assert (Hin1 : column_in_content tas m1 (GetBlock slot) col = true)
    by (unfold column_in_content in *; now rewrite Hcolumn).
  exists (slot_attr_address tas slot col m), m1.
  split; [exact Hrun |]. split; [exact Hnum |].
  intros Hpresence.
  destruct (SetNull_result tas slot col Hcol m1 Hin1) as (_ & _ & Hdec).
  rewrite Hbit, (bool_decide_eq_true_2 _ Hpresence) in Hdec.
  cbn [andb] in Hdec. now rewrite Hdec, Hnum.
Qed.

Lemma AccessForceNotNull_num_records_witness :
  let tas := example_tas in
  let m := example_free_block in
  let slot := example_slot in
  valid_layout (layout_ tas) = true /\
  (Z.of_nat 0 <? NumCols (layout_ tas)) = true /\
  column_in_content tas m (GetBlock slot) 0 = true /\
  exists p m1,
    AccessForceNotNull tas m slot 0 = Done (p, m1) /\
    num_records_ m1 (GetBlock slot) = num_records_ m (GetBlock slot) /\
    (0%nat = PRESENCE_COLUMN_ID ->
     num_records_ (SetNull tas m1 slot 0) (GetBlock slot)
     = wrap32 (num_records_ m (GetBlock slot) - 1)).
Proof.
  intros tas m slot.
  assert (H1 : column_in_content tas m (GetBlock slot) 0 = true)
    by (vm_compute; reflexivity).
  split; [reflexivity |]. split; [reflexivity |]. split; [exact H1 |].
  exact (AccessForceNotNull_num_records tas m slot 0 eq_refl eq_refl H1).
Defined.

(** X9.  The attribute addresses of a column are aligned to the attribute
    size and spaced by it: the pointers [AccessForceNotNull] returns for two
    slots of a block are multiples of the attribute size, and their
    difference is the attribute size times the difference of the slot
    offsets, so the attributes of two different slots do not overlap. *)
Theorem attribute_addresses_spaced tas m slot slot' col :
  valid_layout (layout_ tas) = true ->
  (Z.of_nat col <? NumCols (layout_ tas)) = true ->
  column_in_content tas m (GetBlock slot) col = true ->
  GetBlock slot' = GetBlock slot ->
  exists s p m1 p' m2,
    AttrSize (layout_ tas) col = Done s /\
    AccessForceNotNull tas m slot col = Done (p, m1) /\
    AccessForceNotNull tas m1 slot' col = Done (p', m2) /\
    p mod s = 0 /\ p' mod s = 0 /\
    p' - p = s * (GetOffset slot' - GetOffset slot).
Proof.
  intros Hlayout Hcol Hin Hblock.
  assert (Hc : (col < length (attr_sizes_ (layout_ tas)))%nat)
    by (unfold NumCols in Hcol; lia).
  pose proof (attr_range _ Hlayout col Hc) as Hs.
  destruct (AccessForceNotNull_result tas slot col Hlayout Hcol m Hin)
    as (m1 & Hrun & _ & Hcolumn & _).
  assert (Hin1 : column_in_content tas m1 (GetBlock slot') col = true)
    by (unfold column_in_content in *; now rewrite Hblock, Hcolumn).
  destruct (AccessForceNotNull_result tas slot' col Hlayout Hcol m1 Hin1)
    as (m2 & Hrun2 & _).
  exists (attr_size_of (layout_ tas) col),
    (slot_attr_address tas slot col m), m1,
    (slot_attr_address tas slot' col m1), m2.
  split; [now apply AttrSize_in_layout |].
  split; [exact Hrun |]. split; [exact Hrun2 |].
  unfold slot_attr_address. rewrite Hblock, Hcolumn.
  set (start := AlignedPtr _ _).
  assert (Hstart : start mod attr_size_of (layout_ tas) col = 0)
    by (apply AlignedPtr_aligned; lia).
  split; [| split; [| lia]].
  - rewrite Z.mul_comm, Z.mod_add by lia. exact Hstart.
  - rewrite Z.mul_comm, Z.mod_add by lia. exact Hstart.
Qed.

Lemma attribute_addresses_spaced_witness :
  let tas := example_tas in
  let m := example_free_block in
  let slot := example_slot in
  let slot' := mkTupleSlot (2 ^ 20 + 5) in
  valid_layout (layout_ tas) = true /\
  (Z.of_nat 1 <? NumCols (layout_ tas)) = true /\
  column_in_content tas m (GetBlock slot) 1 = true /\
  GetBlock slot' = GetBlock slot /\
  exists s p m1 p' m2,
    AttrSize (layout_ tas) 1 = Done s /\
    AccessForceNotNull tas m slot 1 = Done (p, m1) /\
    AccessForceNotNull tas m1 slot' 1 = Done (p', m2) /\
    p mod s = 0 /\ p' mod s = 0 /\
    p' - p = s * (GetOffset slot' - GetOffset slot).
Proof.
  intros tas m slot slot'.
  assert (H1 : column_in_content tas m (GetBlock slot) 1 = true)
    by (vm_compute; reflexivity).
  assert (H2 : GetBlock slot' = GetBlock slot) by reflexivity.
  split; [reflexivity |]. split; [reflexivity |]. split; [exact H1 |].
  split; [exact H2 |].
  exact (attribute_addresses_spaced tas m slot slot' 1 eq_refl eq_refl H1 H2).
Defined.

(** X10.  [AccessWithoutNullCheck] fails its assertion on every column but
    the presence column.  On the presence column it returns the address of
    the version pointer of the slot whatever the presence bit: the pointer
    [AccessWithNullCheck] returns when the slot is live, and the pointer
    [AccessForceNotNull] would return. *)
Theorem AccessWithoutNullCheck_presence tas m slot col :
  valid_layout (layout_ tas) = true ->
  (0 <? NumCols (layout_ tas)) = true ->
  column_in_content tas m (GetBlock slot) PRESENCE_COLUMN_ID = true ->
  if bool_decide (col = PRESENCE_COLUMN_ID) then
    exists p m1,
      AccessWithoutNullCheck tas m slot col = Done p /\
      AccessForceNotNull tas m slot col = Done (p, m1) /\
      (Test m (ColumnNullBitmap m (GetBlock slot) col) (GetOffset slot) = true ->
       AccessWithNullCheck tas m slot col = Done p)
  else
    exists msg, AccessWithoutNullCheck tas m slot col = AssertionFailure msg.
Proof.
  intros Hlayout Hcol Hin. unfold AccessWithoutNullCheck.
  destruct (bool_decide (col = PRESENCE_COLUMN_ID)) eqn:Hp; cbn [TERRIER_ASSERT obind].
  - apply bool_decide_eq_true in Hp. subst col.
    destruct (AccessForceNotNull_result tas slot PRESENCE_COLUMN_ID Hlayout
                Hcol m Hin) as (m1 & Hrun & _).
    exists (slot_attr_address tas slot PRESENCE_COLUMN_ID m), m1.
    split; [now apply attr_address_Done |]. split; [exact Hrun |].
    intros Hlive.
    rewrite (AccessWithNullCheck_result tas slot PRESENCE_COLUMN_ID Hlayout Hcol).
    now rewrite Hlive.
  - eexists. reflexivity.
Qed.

Lemma AccessWithoutNullCheck_presence_witness :
  let tas := example_tas in
  let m := example_live_block in
  let slot := example_slot in
  valid_layout (layout_ tas) = true /\
  (0 <? NumCols (layout_ tas)) = true /\
  column_in_content tas m (GetBlock slot) PRESENCE_COLUMN_ID = true /\
  exists p m1,
    AccessWithoutNullCheck tas m slot 0 = Done p /\
    AccessForceNotNull tas m slot 0 = Done (p, m1) /\
    (Test m (ColumnNullBitmap m (GetBlock slot) 0) (GetOffset slot) = true ->
     AccessWithNullCheck tas m slot 0 = Done p).
Proof.
  intros tas m slot.
  assert (H1 : column_in_content tas m (GetBlock slot) PRESENCE_COLUMN_ID = true)
    by (vm_compute; reflexivity).
  split; [reflexivity |]. split; [reflexivity |]. split; [exact H1 |].
  exact (AccessWithoutNullCheck_presence tas m slot 0 eq_refl eq_refl H1).
Defined.

(** ** The reuse queue is first-in first-out and holds the limit plus one *)

Section PoolQueue.

Import ObjectPool.
Context {A : Type} `{Allocator A}.

Lemma get_many_queue n : forall (pool : t A),
  (n <= length (reuse_queue_ pool))%nat ->
  get_many n pool
  = (take n (reuse_queue_ pool),
     mk (fold_left Reuse (take n (reuse_queue_ pool)) (alloc_ pool))
        (drop n (reuse_queue_ pool)) (reuse_limit_ pool)).
Proof.
  induction n as [| n IH]; intros pool Hn.
  - destruct pool. reflexivity.
  - destruct pool as [alloc q limit]. cbn [reuse_queue_ alloc_ reuse_limit_] in *.
    destruct q as [| obj q]; [simpl in Hn; lia |].
    cbn [get_many Get Dequeue reuse_queue_ alloc_ reuse_limit_].
    rewrite IH by (simpl in *; lia). reflexivity.
Qed.

Lemma run_releases objs : forall (pool : t A),
  0 <= reuse_limit_ pool ->
  (length (reuse_queue_ pool) <= Z.to_nat (reuse_limit_ pool + 1))%nat ->
  let room := (Z.to_nat (reuse_limit_ pool + 1) - length (reuse_queue_ pool))%nat in
  run pool (map CallRelease objs)
  = mk (fold_left Delete (drop room objs) (alloc_ pool))
       (reuse_queue_ pool ++ take room objs) (reuse_limit_ pool).
Proof.
  induction objs as [| obj objs IH]; intros pool Hlimit Hlen room.
  - destruct pool. cbn. rewrite take_nil, drop_nil, app_nil_r. reflexivity.
  - destruct pool as [alloc q limit]. cbn [reuse_queue_ alloc_ reuse_limit_] in *.
    cbn [map run fold_left run_call]. fold (run (Release (mk alloc q limit) obj)
                                            (map CallRelease objs)).
    unfold Release, UnsafeSize, Enqueue. cbn [reuse_queue_ alloc_ reuse_limit_].
    destruct (Z.gtb_spec (Z.of_nat (length q)) limit) as [Hfull | Hroom].
    + rewrite IH by (cbn [reuse_queue_ reuse_limit_]; lia).
      cbn [reuse_queue_ alloc_ reuse_limit_].
      assert (Hz : room = 0%nat) by (unfold room; lia).
      rewrite Hz. replace (Z.to_nat (limit + 1) - length q)%nat with 0%nat by lia.
      reflexivity.
    + rewrite IH by (cbn [reuse_queue_ reuse_limit_]; rewrite ?length_app;
                     simpl; lia).
      cbn [reuse_queue_ alloc_ reuse_limit_]. rewrite length_app. cbn [length].
      assert (Hs : room = S (Z.to_nat (limit + 1) - (length q + 1))%nat)
        by (unfold room; lia).
      rewrite Hs. cbn [take drop]. now rewrite <- app_assoc.
Qed.

End PoolQueue.

(** X11.  The reuse queue is first-in first-out.  When the queue holds no
    more objects than the reuse limit, [Release] followed by [Get] hands
    out the object released earliest, without asking the allocator for a
    new one: on an empty queue, the object just released. *)
Theorem Release_Get_fifo {A : Type} `{ObjectPool.Allocator A}
    (pool : ObjectPool.t A) (obj : Z) :
  ObjectPool.UnsafeSize (ObjectPool.reuse_queue_ pool)
  <= ObjectPool.reuse_limit_ pool ->
  ObjectPool.Get (ObjectPool.Release pool obj)
  = (hd obj (ObjectPool.reuse_queue_ pool),
     ObjectPool.mk
       (ObjectPool.Reuse (ObjectPool.alloc_ pool)
          (hd obj (ObjectPool.reuse_queue_ pool)))
       (tl (ObjectPool.reuse_queue_ pool ++ [obj]))
       (ObjectPool.reuse_limit_ pool)).
Proof.
  intros Hsize. unfold ObjectPool.Release.
  destruct (Z.gtb_spec (ObjectPool.UnsafeSize (ObjectPool.reuse_queue_ pool))
              (ObjectPool.reuse_limit_ pool)) as [Hgt | _]; [lia |].
  unfold ObjectPool.Get, ObjectPool.Enqueue.
  cbn [ObjectPool.reuse_queue_ ObjectPool.alloc_ ObjectPool.reuse_limit_].
  now destruct (ObjectPool.reuse_queue_ pool).
Qed.

Lemma Release_Get_fifo_witness :
  let pool := ObjectPool.mk (ObjectPool.mkBump 64 [48; 56]) [48] 1 in
  ObjectPool.UnsafeSize (ObjectPool.reuse_queue_ pool)
  <= ObjectPool.reuse_limit_ pool /\
  ObjectPool.Get (ObjectPool.Release pool 56)
  = (48, ObjectPool.mk (ObjectPool.mkBump 64 [48; 56]) [56] 1).
Proof.
  intros pool.
  assert (H1 : ObjectPool.UnsafeSize (ObjectPool.reuse_queue_ pool)
               <= ObjectPool.reuse_limit_ pool) by (vm_compute; discriminate).
  split; [exact H1 |].
  exact (Release_Get_fifo pool 56 H1).
Defined.

(** X12.  A new pool keeps the first [reuse_limit + 1] objects released to
    it, in the order of their release, and deletes every object released
    after them: the queue holds one object more than the reuse limit. *)
Theorem ObjectPool_releases {A : Type} `{ObjectPool.Allocator A}
    (alloc : A) (reuse_limit : Z) (objs : list Z) :
  0 <= reuse_limit ->
  ObjectPool.run (ObjectPool.create alloc reuse_limit)
    (map ObjectPool.CallRelease objs)
  = ObjectPool.mk
      (fold_left ObjectPool.Delete (drop (Z.to_nat (reuse_limit + 1)) objs) alloc)
      (take (Z.to_nat (reuse_limit + 1)) objs)
      reuse_limit.
Proof.
  intros Hlimit.
  pose proof (run_releases objs (ObjectPool.create alloc reuse_limit)) as Hrun.
  cbn [ObjectPool.create ObjectPool.reuse_queue_ ObjectPool.alloc_
         ObjectPool.reuse_limit_ length app] in Hrun.
  rewrite Nat.sub_0_r in Hrun. apply Hrun; lia.
Qed.

Lemma ObjectPool_releases_witness :
  0 <= 1 /\
  ObjectPool.run (ObjectPool.create (ObjectPool.mkBump 64 [8; 16; 24]) 1)
    (map ObjectPool.CallRelease [8; 16; 24])
  = ObjectPool.mk (ObjectPool.mkBump 64 [8; 16]) [8; 16] 1.
Proof.
  split; [lia |].
  exact (ObjectPool_releases (ObjectPool.mkBump 64 [8; 16; 24]) 1 [8; 16; 24]
           ltac:(lia)).
Defined.

(** X13.  Objects come back in the order they were released: after
    releasing at most [reuse_limit + 1] objects to a new pool, as many calls
    of [Get] return exactly these objects, in that order, and empty the
    queue, and the allocator is only asked to reuse them. *)
Theorem ObjectPool_release_get_order {A : Type} `{ObjectPool.Allocator A}
    (alloc : A) (reuse_limit : Z) (objs : list Z) :
  0 <= reuse_limit ->
  Z.of_nat (length objs) <= reuse_limit + 1 ->
  get_many (length objs)
    (ObjectPool.run (ObjectPool.create alloc reuse_limit)
       (map ObjectPool.CallRelease objs))
  = (objs,
     ObjectPool.mk (fold_left ObjectPool.Reuse objs alloc) [] reuse_limit).
Proof.
  intros Hlimit Hlen.
  pose proof (run_releases objs (ObjectPool.create alloc reuse_limit)) as Hrun.
  cbn [ObjectPool.create ObjectPool.reuse_queue_ ObjectPool.alloc_
         ObjectPool.reuse_limit_ length app] in Hrun.
  rewrite Nat.sub_0_r in Hrun. rewrite Hrun by lia.
  rewrite take_ge, drop_ge by lia. cbn [fold_left].
  rewrite get_many_queue by (cbn [ObjectPool.reuse_queue_]; lia).
  cbn [ObjectPool.reuse_queue_ ObjectPool.alloc_ ObjectPool.reuse_limit_].
  now rewrite take_ge, drop_ge by lia.
Qed.

Lemma ObjectPool_release_get_order_witness :
  0 <= 1 /\
  Z.of_nat (length [8; 16]) <= 1 + 1 /\
  get_many (length [8; 16])
    (ObjectPool.run (ObjectPool.create (ObjectPool.mkBump 64 [8; 16]) 1)
       (map ObjectPool.CallRelease [8; 16]))
  = ([8; 16], ObjectPool.mk (ObjectPool.mkBump 64 [8; 16]) [] 1).
Proof.
  split; [lia |]. split; [simpl; lia |].
  exact (ObjectPool_release_get_order (ObjectPool.mkBump 64 [8; 16]) 1 [8; 16]
           ltac:(lia) ltac:(simpl; lia)).
Defined.

(** ** What the constructor and the accessors do not check *)

(** X14.  The constructor does not require the requested column ids to be
    distinct: for every non-empty list of at most 65535 column ids of the
    layout, repeated ids included, it returns an initializer that keeps
    every occurrence, sorted, with one offset for each. *)
Theorem ProjectedRowInitializer_new_repeated hdr layout col_ids :
  valid_layout layout = true ->
  col_ids <> [] ->
  forallb (fun c => Z.of_nat c <? NumCols layout) col_ids = true ->
  Z.of_nat (length col_ids) <= 65535 ->
  0 <= hdr <= 2 ^ 16 ->
  exists init,
    ProjectedRowInitializer_new hdr layout col_ids = Done init /\
    Sorted Nat.le (col_ids_ init) /\
    col_ids_ init ≡ₚ col_ids /\
    length (offsets_ init) = length col_ids.
Proof.
  intros Hlayout Hne Hin Hlen Hhdr.
  assert (Hall : Forall (fun c => (c < length (attr_sizes_ layout))%nat) col_ids).
  { apply Forall_forall. intros c Hc. rewrite forallb_forall in Hin.
    specialize (Hin c (proj1 (list_elem_of_In _ _) Hc)).
    unfold NumCols in Hin. lia. }
  assert (Hsorted : Forall (fun c => (c < length (attr_sizes_ layout))%nat)
                      (std_sort col_ids))
    by now rewrite std_sort_Permutation.
  pose proof (std_sort_length col_ids) as Hsl.
  assert (Hcols : (0 < length (attr_sizes_ layout))%nat).
  { destruct col_ids as [| c col_ids]; [congruence |].
    inversion Hall; subst. lia. }
  unfold ProjectedRowInitializer_new.
  rewrite bool_decide_eq_false_2 by assumption.
  cbn [negb TERRIER_ASSERT obind].
  replace (Z.of_nat (length (@nil nat)) <? NumCols layout) with true
    by (symmetry; apply Z.ltb_lt; unfold NumCols; cbn [length]; lia).
  cbn [obind].
  pose proof (std_sort_Sorted col_ids) as Hasc.
  pose proof (std_sort_Permutation col_ids) as Hperm.
  destruct (std_sort col_ids) as [| c0 rest] eqn:Hs;
    [destruct col_ids; [congruence | simpl in Hsl; lia] |].
  pose proof Hsorted as Hsorted'.
  inversion Hsorted' as [| ? ? Hc0 Hrest]; subst.
  pose proof (attr_range layout Hlayout c0 Hc0) as Hac0.
  cbn [vec_at lookup list_lookup obind hd].
  rewrite (AttrSize_in_layout layout c0 Hc0). cbn [obind].
  set (n := Z.of_nat (length (c0 :: rest))).
  assert (Hn : 1 <= n <= 65535) by (unfold n; simpl length in *; lia).
  rewrite (wrap32_small (n * 2)), (wrap32_small (n * 4)), (wrap32_small n) by lia.
  rewrite (wrap32_small (hdr + n * 2)) by lia.
  rewrite (PadUpToSize_pad_to 4) by lia.
  pose proof (pad_to_bounds 4 (hdr + n * 2) ltac:(lia)) as Hp1.
  set (size1 := Reference.pad_to 4 (hdr + n * 2)) in *.
  rewrite (wrap32_small (size1 + n * 4)) by lia.
  rewrite (PadUpToSize_pad_to 8) by lia.
  pose proof (pad_to_bounds 8 (size1 + n * 4) ltac:(lia)) as Hp2.
  set (size2 := Reference.pad_to 8 (size1 + n * 4)) in *.
  rewrite SizeInBytes_bitmap_bytes by lia.
  assert (Hbm : 0 <= Reference.bitmap_bytes n <= n).
  { unfold Reference.bitmap_bytes.
    pose proof (Z.div_mod (n + 7) 8 ltac:(lia)).
    pose proof (Z.mod_pos_bound (n + 7) 8 ltac:(lia)). lia. }
  rewrite (wrap32_small (size2 + _)) by lia.
  rewrite (PadUpToSize_pad_to (attr_size_of layout c0)) by lia.
  pose proof (pad_to_bounds (attr_size_of layout c0)
                (size2 + Reference.bitmap_bytes n) ltac:(lia)) as Hp3.
  set (size3 := Reference.pad_to _ (size2 + Reference.bitmap_bytes n)) in *.
  pose proof (ctor_loop_place layout Hlayout (c0 :: rest) [] [] size3
                Hsorted eq_refl ltac:(lia)) as Hloop.
  cbn [app length] in Hloop.
  rewrite <- Hsl. cbn [length].
  assert (Hn' : n = Z.of_nat (S (length rest))) by reflexivity.
  rewrite Hloop by lia. cbn [obind fst snd].
  eexists. split; [reflexivity |]. cbn [col_ids_ offsets_].
  split; [exact Hasc |]. split; [exact Hperm |].
  rewrite place_length, List.length_map. reflexivity.
Qed.

Lemma ProjectedRowInitializer_new_repeated_witness :
  let layout := mkBlockLayout [8; 8; 4; 2; 1] 32 in
  valid_layout layout = true /\
  [3; 1; 3]%nat <> [] /\
  forallb (fun c => Z.of_nat c <? NumCols layout) [3; 1; 3]%nat = true /\
  Z.of_nat (length [3; 1; 3]%nat) <= 65535 /\
  exists init,
    ProjectedRowInitializer_new 8 layout [3; 1; 3]%nat = Done init /\
    Sorted Nat.le (col_ids_ init) /\
    col_ids_ init ≡ₚ [3; 1; 3]%nat /\
    length (offsets_ init) = length [3; 1; 3]%nat.
Proof.
  intros layout.
  assert (H1 : [3; 1; 3]%nat <> []) by discriminate.
  assert (H2 : Z.of_nat (length [3; 1; 3]%nat) <= 65535) by (simpl; lia).
  split; [reflexivity |]. split; [exact H1 |]. split; [reflexivity |].
  split; [exact H2 |].
  exact (ProjectedRowInitializer_new_repeated 8 layout [3; 1; 3]%nat
           eq_refl H1 eq_refl H2 ltac:(lia)).
Defined.

(** X15.  The values of a column lie behind its presence bitmap: for a
    slot of the block, the pointer [AccessForceNotNull] returns is at or
    after the end of the [ceil(NumSlots / 8)] bytes of the bitmap, so the
    bytes of an attribute never share an address with the presence bit of
    any slot of the column. *)
Theorem attribute_behind_bitmap tas m slot slot' col :
  valid_layout (layout_ tas) = true ->
  (Z.of_nat col <? NumCols (layout_ tas)) = true ->
  column_in_content tas m (GetBlock slot) col = true ->
  GetBlock slot' = GetBlock slot ->
  GetOffset slot' < NumSlots (layout_ tas) ->
  exists p m1,
    AccessForceNotNull tas m slot col = Done (p, m1) /\
    ColumnNullBitmap m1 (GetBlock slot') col + GetOffset slot' / 8 < p.
Proof.
  intros Hlayout Hcol Hin Hblock Hslots.
  assert (Hc : (col < length (attr_sizes_ (layout_ tas)))%nat)
    by (unfold NumCols in Hcol; lia).
  pose proof (attr_range _ Hlayout col Hc) as Hs.
  pose proof (NumSlots_range _ Hlayout) as Hns.
  pose proof (GetOffset_range slot) as Hoff.
  pose proof (GetOffset_range slot') as Hoff'.
  destruct (AccessForceNotNull_result tas slot col Hlayout Hcol m Hin)
    as (m1 & Hrun & _ & Hcolumn & _).
  exists (slot_attr_address tas slot col m), m1.
  split; [exact Hrun |].
  unfold ColumnNullBitmap, MiniBlock.PresenceBitmap.
  rewrite Hblock, Hcolumn. unfold slot_attr_address.
  set (column := Block.Column m (GetBlock slot) col).
  pose proof (AlignedPtr_bounds (attr_size_of (layout_ tas) col)
                (column + SizeInBytes (NumSlots (layout_ tas))) ltac:(lia)) as Ha.
  assert (Hbyte : GetOffset slot' / 8 < SizeInBytes (NumSlots (layout_ tas))).
  { rewrite SizeInBytes_bitmap_bytes by lia. unfold Reference.bitmap_bytes.
    pose proof (Z.div_mod (GetOffset slot') 8 ltac:(lia)).
    pose proof (Z.mod_pos_bound (GetOffset slot') 8 ltac:(lia)).
    pose proof (Z.div_mod (NumSlots (layout_ tas) + 7) 8 ltac:(lia)).
    pose proof (Z.mod_pos_bound (NumSlots (layout_ tas) + 7) 8 ltac:(lia)).
    lia. }
  nia.
Qed.

Lemma attribute_behind_bitmap_witness :
  let tas := example_tas in
  let m := example_free_block in
  let slot := example_slot in
  let slot' := mkTupleSlot (2 ^ 20 + 9) in
  valid_layout (layout_ tas) = true /\
  (Z.of_nat 1 <? NumCols (layout_ tas)) = true /\
  column_in_content tas m (GetBlock slot) 1 = true /\
  GetBlock slot' = GetBlock slot /\
  GetOffset slot' < NumSlots (layout_ tas) /\
  exists p m1,
    AccessForceNotNull tas m slot 1 = Done (p, m1) /\
    ColumnNullBitmap m1 (GetBlock slot') 1 + GetOffset slot' / 8 < p.
Proof.
  intros tas m slot slot'.
  assert (H1 : column_in_content tas m (GetBlock slot) 1 = true)
    by (vm_compute; reflexivity).
  assert (H2 : GetBlock slot' = GetBlock slot) by reflexivity.
  assert (H3 : GetOffset slot' < NumSlots (layout_ tas)) by (vm_compute; reflexivity).
  split; [reflexivity |]. split; [reflexivity |]. split; [exact H1 |].
  split; [exact H2 |]. split; [exact H3 |].
  exact (attribute_behind_bitmap tas m slot slot' 1 eq_refl eq_refl H1 H2 H3).
Defined.
